(** * Leaper: tracking of autoclosed pairs

    A shallow embedding of the [Pairs] container of the Leaper extension
    (the module that defines [class Pairs], [applyContentChanges],
    [getNewPos], [getEndPos], [getNewPair], [removeEscapedPairs],
    [reapplyDecorations] and [removeDecorations]) and the properties of
    its position arithmetic, pair invalidation, rescue buffer and
    decoration calls; and of the part of the [Engine] class that assigns
    one tracker to each visible text editor (module [Engine]).

    Conventions.
    - Line and character numbers are JavaScript numbers holding
      non-negative integers; they are modelled as [Z].
    - A JavaScript string is a sequence of UTF-16 code units; it is
      modelled as a list of code units ([list N]).
    - The host editor API ([Position], [Range], [TextEditor]) is modelled
      after its documented behaviour.
    - [Pair] objects are mutable and shared; the lists of the model hold
      the value each object has at that program point. *)

From Stdlib Require Import ZArith NArith List Bool Lia Sorted String Ascii.
Import ListNotations.
Local Open Scope Z_scope.

(* ================================================================== *)
(** ** Host API: positions and ranges *)

Module Host.

(** [vscode.Position]: a zero-based line and a zero-based character. *)
Record Position : Type := mkPosition { line : Z; character : Z }.

Definition isBefore (a b : Position) : bool :=
  (line a <? line b) || ((line a =? line b) && (character a <? character b)).

Definition isEqual (a b : Position) : bool :=
  (line a =? line b) && (character a =? character b).

Definition isBeforeOrEqual (a b : Position) : bool :=
  (line a <? line b) || ((line a =? line b) && (character a <=? character b)).

Definition isAfter (a b : Position) : bool := negb (isBeforeOrEqual a b).

Definition isAfterOrEqual (a b : Position) : bool := negb (isBefore a b).

(** [pos.translate({ characterDelta })]. *)
Definition translate_characterDelta (p : Position) (delta : Z) : Position :=
  mkPosition (line p) (character p + delta).

(** The constructor of [Position] rejects negative coordinates. *)
Definition validPosition (p : Position) : Prop :=
  0 <= line p /\ 0 <= character p.

(** [vscode.Range]: an ordered pair of positions. *)
Record Range : Type := mkRange { start : Position; end_ : Position }.

(** [new Range(a, b)]: the constructor orders its two arguments. *)
Definition Range_new (a b : Position) : Range :=
  if isBefore b a then mkRange b a else mkRange a b.

Definition isSingleLine (r : Range) : bool :=
  line (start r) =? line (end_ r).

Definition isEmpty (r : Range) : bool := isEqual (start r) (end_ r).

(** Every [Range] object satisfies [start <= end]. *)
Definition validRange (r : Range) : Prop :=
  isBeforeOrEqual (start r) (end_ r) = true.

End Host.
Export Host.

(* ================================================================== *)
(** ** Strings *)

Module JsString.

(** A UTF-16 code unit. *)
Definition CodeUnit : Type := N.

Definition JsString : Type := list CodeUnit.

(** The code units of an ASCII literal. *)
Definition lit (s : string) : JsString :=
  map N_of_ascii (list_ascii_of_string s).

(** U+000A LINE FEED, the separator of [split('\n')]. *)
Definition LF : CodeUnit := 10%N.

Definition length (s : JsString) : Z := Z.of_nat (List.length s).

(** [s === t] on strings. *)
Fixpoint strictEquals (s t : JsString) : bool :=
  match s, t with
  | [], [] => true
  | a :: s', b :: t' => N.eqb a b && strictEquals s' t'
  | _, _ => false
  end.

(** [s.split('\n')]: the pieces of [s] between line feeds; never empty. *)
Fixpoint split_LF (s : JsString) : list JsString :=
  match s with
  | [] => [[]]
  | c :: s' =>
      if N.eqb c LF then [] :: split_LF s'
      else match split_LF s' with
           | [] => [[c]]
           | piece :: pieces => (c :: piece) :: pieces
           end
  end.

(** White space and line terminators, the code units [trim] strips. *)
Definition isWhiteSpace (c : CodeUnit) : bool :=
  ((9 <=? c) && (c <=? 13) || (c =? 32) || (c =? 160) || (c =? 5760)
   || (8192 <=? c) && (c <=? 8202) || (c =? 8232) || (c =? 8233)
   || (c =? 8239) || (c =? 8287) || (c =? 12288) || (c =? 65279))%N.

Fixpoint trimStart (s : JsString) : JsString :=
  match s with
  | [] => []
  | c :: s' => if isWhiteSpace c then trimStart s' else s
  end.

Definition trimEnd (s : JsString) : JsString := rev (trimStart (rev s)).

(** [s.trim()]. *)
Definition trim (s : JsString) : JsString := trimEnd (trimStart s).

End JsString.
Export JsString.

(* ================================================================== *)
(** ** Content changes and the position arithmetic of [getNewPos] *)

(** [TextDocumentContentChangeEvent]: the replaced range and the text
    that replaces it. *)
Record TextDocumentContentChangeEvent : Type := mkContentChange {
  range : Range;
  text : JsString
}.

(** The argument of [getEndPos]: [string | Range]. *)
Inductive StringOrRange : Type :=
| ofString (s : JsString)
| ofRange (r : Range).

(** [getEndPos]: the end position of a string or a range that is appended
    to the end of [startPos]. *)
Definition getEndPos (startPos : Position) (arg : StringOrRange) : Position :=
  let '(deltaLines, argLastLineLength) :=
    match arg with
    | ofString s =>
        let splitText := split_LF s in
        (Z.of_nat (List.length splitText) - 1,
         JsString.length (last splitText []))
    | ofRange r =>
        (line (end_ r) - line (start r),
         character (end_ r) - (if isSingleLine r then character (start r) else 0))
    end in
  mkPosition (line startPos + deltaLines)
             (argLastLineLength + (if deltaLines >? 0 then 0 else character startPos)).

(** [getNewPos]: the new position after one content change, [None] (the
    source's [undefined]) when the change overwrote the position. *)
Definition getNewPos (pos : Position) (contentChange : TextDocumentContentChangeEvent)
  : option Position :=
  if isAfterOrEqual pos (start (range contentChange))
     && isBefore pos (end_ (range contentChange))
  then None
  else if isBefore pos (start (range contentChange))
  then Some pos
  else
    let gapRange := Range_new (end_ (range contentChange)) pos in
    let textEndPos := getEndPos (start (range contentChange))
                                (ofString (text contentChange)) in
    Some (getEndPos textEndPos (ofRange gapRange)).

(** The quantities of the specification, stated on the text directly. *)
Module SpecText.

(** Number of line breaks in a text. *)
Fixpoint insertedLines (s : JsString) : Z :=
  match s with
  | [] => 0
  | c :: s' => (if N.eqb c LF then 1 else 0) + insertedLines s'
  end.

(** The text after the last line break, all of it when there is none. *)
Fixpoint afterLastLineBreak (s : JsString) : JsString :=
  match s with
  | [] => []
  | c :: s' =>
      if 0 <? insertedLines s then afterLastLineBreak s' else s
  end.

Definition insertedLastLineLen (s : JsString) : Z :=
  JsString.length (afterLastLineBreak s).

End SpecText.

(** The position of the specification after a change that ends at or
    before it. *)
Definition shifted (p : Position) (c : TextDocumentContentChangeEvent) : Position :=
  mkPosition
    (line (start (range c)) + SpecText.insertedLines (text c)
     + (line p - line (end_ (range c))))
    (if line p >? line (end_ (range c)) then character p
     else if SpecText.insertedLines (text c) >? 0
          then SpecText.insertedLastLineLen (text c)
               + (character p - character (end_ (range c)))
          else character (start (range c))
               + SpecText.insertedLastLineLen (text c)
               + (character p - character (end_ (range c)))).

(* ================================================================== *)
(** ** Pairs and the decoration renderer *)

(** The decoration options handed to the renderer; opaque to the tracker. *)
Record DecorationRenderOptions : Type := mkRenderOptions { styleKey : JsString }.

(** Modelled from the spec: the [Pair] class (module [./pair]), which the
    container imports: a tracked open/close position pair with a
    decoration flag, [{ open, close, isDecorated }], together with the
    decoration options its constructor receives. *)
Record Pair : Type := mkPair {
  open : Position;
  close : Position;
  isDecorated : bool;
  decorationOptions : DecorationRenderOptions
}.

(** [new Pair(open, close, decorationOptions)]: not yet decorated. *)
Definition Pair_new (o c : Position) (opts : DecorationRenderOptions) : Pair :=
  mkPair o c false opts.

(** Modelled from the spec: [Pair.enclosesPos], true iff
    [open <= pos <= close], both endpoints inclusive. *)
Definition enclosesPos (pair_ : Pair) (pos : Position) : bool :=
  isBeforeOrEqual (open pair_) pos && isBeforeOrEqual pos (close pair_).

(** Modelled from the spec: [Pair.decorate] and [Pair.undecorate] are
    idempotent and call into the external renderer. *)
Definition decorate (pair_ : Pair) : Pair :=
  mkPair (open pair_) (close pair_) true (decorationOptions pair_).

Definition undecorate (pair_ : Pair) : Pair :=
  mkPair (open pair_) (close pair_) false (decorationOptions pair_).

(** Assignment to [pair.open] and [pair.close]. *)
Definition setSides (pair_ : Pair) (o c : Position) : Pair :=
  mkPair o c (isDecorated pair_) (decorationOptions pair_).

(** The two sides of a pair, without its decoration state. *)
Definition sides (pair_ : Pair) : Position * Position := (open pair_, close pair_).

(** A call received by the renderer, with the pair as it was when called. *)
Inductive RendererCall : Type :=
| decorateCall (pair_ : Pair)
| undecorateCall (pair_ : Pair).

(** [removeDecorations]: undecorate every pair of the list. The objects
    are shared, so the caller's list holds the undecorated pairs. *)
Definition removeDecorations (pairs : list Pair) : list Pair * list RendererCall :=
  (map undecorate pairs, map undecorateCall pairs).

(** [pairs[pairs.length - 1].decorate()]. *)
Fixpoint decorateLast (pairs : list Pair) : list Pair * list RendererCall :=
  match pairs with
  | [] => ([], [])
  | [pair_] => ([decorate pair_], [decorateCall pair_])
  | pair_ :: rest => let '(rest', calls) := decorateLast rest in (pair_ :: rest', calls)
  end.

(** [reapplyDecorations]. *)
Definition reapplyDecorations (pairs : list Pair) (decorateOnlyNearestPair : bool)
  : list Pair * list RendererCall :=
  if (Z.of_nat (List.length pairs) <? 1) then (pairs, [])
  else
    let '(cleared, calls1) := removeDecorations pairs in
    if decorateOnlyNearestPair then
      let '(decorated, calls2) := decorateLast cleared in
      (decorated, calls1 ++ calls2)
    else
      (map decorate cleared, calls1 ++ map decorateCall cleared).

(* ================================================================== *)
(** ** Updating a list of pairs *)

(** The inner loop of [applyContentChanges] for one pair: [inl] the pair
    with its sides moved through every content change, [inr] the pair as
    it was when a change removed it. *)
Fixpoint applyToPair (pair_ : Pair) (contentChanges : list TextDocumentContentChangeEvent)
  : Pair + Pair :=
  match contentChanges with
  | [] => inl pair_
  | contentChange :: rest =>
      match getNewPos (open pair_) contentChange, getNewPos (close pair_) contentChange with
      | Some newOpen, Some newClose =>
          if negb (line newOpen =? line newClose) then inr pair_
          else applyToPair (setSides pair_ newOpen newClose) rest
      | _, _ => inr pair_
      end
  end.

(** [applyContentChanges]: the updated pairs followed by the removed ones. *)
Fixpoint applyContentChanges (pairs : list Pair)
  (contentChanges : list TextDocumentContentChangeEvent) : list Pair * list Pair :=
  match pairs with
  | [] => ([], [])
  | pair_ :: rest =>
      let '(updated, removed) := applyContentChanges rest contentChanges in
      match applyToPair pair_ contentChanges with
      | inl pair' => (pair' :: updated, removed)
      | inr pair' => (updated, pair' :: removed)
      end
  end.

(** Settings of the extension read by the container. *)
Record Settings : Type := mkSettings {
  languageRule : list JsString;
  settingsDecorationOptions : DecorationRenderOptions;
  decorateOnlyNearestPair : bool
}.

(** How a call completes: normally, or with the [TypeError] that
    destructuring [undefined] raises. *)
Inductive Completion (A : Type) : Type :=
| normal (a : A)
| throwsTypeError.
Arguments normal {A} a.
Arguments throwsTypeError {A}.

(** [getNewPair]: only [contentChanges[0]] is inspected. *)
Definition getNewPair (contentChanges : list TextDocumentContentChangeEvent)
  (settings : Settings) : Completion (option Pair) :=
  match contentChanges with
  | [] => throwsTypeError
  | first :: _ =>
      if (JsString.length (text first) =? 2)
         && isEmpty (range first)
         && existsb (fun rule => strictEquals (text first) rule) (languageRule settings)
      then normal (Some (Pair_new (start (range first))
                                  (translate_characterDelta (start (range first)) 1)
                                  (settingsDecorationOptions settings)))
      else normal None
  end.

(** The part of [TextEditor] the container reads: the active end of the
    selection and the document's [getText]. *)
Record TextEditor : Type := mkTextEditor {
  selection_active : Position;
  document_getText : Range -> JsString
}.

(** [removeEscapedPairs]: the retained pairs followed by the removed ones. *)
Fixpoint removeEscapedPairs (pairs : list Pair) (activeTextEditor : TextEditor)
  : list Pair * list Pair :=
  match pairs with
  | [] => ([], [])
  | pair_ :: rest =>
      let '(retained, removed) := removeEscapedPairs rest activeTextEditor in
      if enclosesPos pair_ (selection_active activeTextEditor)
      then (pair_ :: retained, removed)
      else (retained, pair_ :: removed)
  end.

(* ================================================================== *)
(** ** The [Pairs] container *)

Record Pairs : Type := mkPairs {
  data : list Pair;
  recentlyRemovedDueToCursorMove : list Pair;
  settings : Settings
}.

(** [new Pairs(settings)]. *)
Definition Pairs_new (s : Settings) : Pairs := mkPairs [] [] s.

(** What a method leaves behind: how it completed, the container after
    it, and the renderer calls it made, in order. *)
Record Outcome : Type := mkOutcome {
  completion : Completion unit;
  this_ : Pairs;
  rendererCalls : list RendererCall
}.

(** [get isEmpty]. *)
Definition Pairs_isEmpty (this : Pairs) : bool :=
  Z.of_nat (List.length (data this)) <? 1.

(** [get mostNested]. *)
Definition mostNested (this : Pairs) : option Pair :=
  nth_error (data this) (List.length (data this) - 1).

(** [get hasLineOfSight], given [window.activeTextEditor]. *)
Definition hasLineOfSight (window_activeTextEditor : option TextEditor) (this : Pairs)
  : bool :=
  match window_activeTextEditor with
  | None => false
  | Some editor =>
      if Z.of_nat (List.length (data this)) <? 1 then false
      else
        match nth_error (data this) (List.length (data this) - 1) with
        | None => false
        | Some nearest =>
            let cursorPos := selection_active editor in
            let textInBetween :=
              document_getText editor (Range_new cursorPos (close nearest)) in
            JsString.length (trim textInBetween) =? 0
        end
  end.

(** [updateGivenContentChanges]. When [getNewPair] throws, the fields
    already assigned keep their new values and no decoration is redone. *)
Definition updateGivenContentChanges
  (contentChanges : list TextDocumentContentChangeEvent)
  (activeTextEditor : TextEditor) (this : Pairs) : Outcome :=
  let '(pending, _) :=
    applyContentChanges (recentlyRemovedDueToCursorMove this) contentChanges in
  let recovered :=
    filter (fun pair_ => enclosesPos pair_ (selection_active activeTextEditor)) pending in
  let '(updated, removed) := applyContentChanges (data this) contentChanges in
  let data1 := updated ++ recovered in
  match getNewPair contentChanges (settings this) with
  | throwsTypeError =>
      mkOutcome throwsTypeError (mkPairs data1 [] (settings this)) []
  | normal newPair =>
      let data2 := match newPair with
                   | Some pair_ => data1 ++ [pair_]
                   | None => data1
                   end in
      let '(_, calls1) := removeDecorations removed in
      let '(data3, calls2) :=
        reapplyDecorations data2 (decorateOnlyNearestPair (settings this)) in
      mkOutcome (normal tt) (mkPairs data3 [] (settings this)) (calls1 ++ calls2)
  end.

(** [updateGivenCursorChanges]. *)
Definition updateGivenCursorChanges (activeTextEditor : TextEditor) (this : Pairs)
  : Outcome :=
  let '(retained, removed) := removeEscapedPairs (data this) activeTextEditor in
  if (Z.of_nat (List.length removed) >? 0) then
    let '(removed', calls1) := removeDecorations removed in
    let '(data', calls2) :=
      reapplyDecorations retained (decorateOnlyNearestPair (settings this)) in
    mkOutcome (normal tt) (mkPairs data' removed' (settings this)) (calls1 ++ calls2)
  else
    mkOutcome (normal tt) (mkPairs retained removed (settings this)) [].

(** [clear]. *)
Definition clear (this : Pairs) : Outcome :=
  mkOutcome (normal tt) (mkPairs [] [] (settings this)) (map undecorateCall (data this)).

(* ================================================================== *)
(** ** Events and reachable states *)

(** The three ways the owner of a [Pairs] container drives it. *)
Inductive Event : Type :=
| contentChangeEvent (contentChanges : list TextDocumentContentChangeEvent)
                     (activeTextEditor : TextEditor)
| cursorChangeEvent (activeTextEditor : TextEditor)
| clearEvent.

Definition handle (e : Event) (this : Pairs) : Outcome :=
  match e with
  | contentChangeEvent contentChanges activeTextEditor =>
      updateGivenContentChanges contentChanges activeTextEditor this
  | cursorChangeEvent activeTextEditor =>
      updateGivenCursorChanges activeTextEditor this
  | clearEvent => clear this
  end.

(** The container after a sequence of events, oldest first. *)
Fixpoint run (events : list Event) (this : Pairs) : Pairs :=
  match events with
  | [] => this
  | e :: rest => run rest (this_ (handle e this))
  end.

(** Every range of the batch is a [Range] object. *)
Definition validChanges (contentChanges : list TextDocumentContentChangeEvent) : bool :=
  forallb (fun c => isBeforeOrEqual (start (range c)) (end_ (range c))) contentChanges.

Fixpoint validEvents (events : list Event) : bool :=
  match events with
  | [] => true
  | contentChangeEvent contentChanges _ :: rest =>
      validChanges contentChanges && validEvents rest
  | _ :: rest => validEvents rest
  end.

(* ================================================================== *)
(** ** Predicates of the specification *)

(** [inner] lies strictly within [outer]:
    [outer.open < inner.open < inner.close < outer.close]. *)
Definition strictlyInside (inner outer : Pair) : bool :=
  isBefore (open outer) (open inner)
  && isBefore (open inner) (close inner)
  && isBefore (close inner) (close outer).

(** Strict proper nesting of a list ordered outermost to innermost. *)
Fixpoint properlyNested (pairs : list Pair) : bool :=
  match pairs with
  | [] => true
  | outer :: rest =>
      match rest with
      | [] => true
      | inner :: _ => strictlyInside inner outer && properlyNested rest
      end
  end.

(** [outer] holds [inner] strictly within its sides. *)
Definition holds (outer inner : Pair) : Prop := strictlyInside inner outer = true.

(** An insertion at [pos] lands between the two sides of the pair:
    after the opening character, at or before the closing one. *)
Definition landsBetweenSides (pos : Position) (pair_ : Pair) : bool :=
  isBefore (open pair_) pos && isBeforeOrEqual pos (close pair_).

(** The pairs given back by the rescue buffer in a content-change update. *)
Definition recoveredPairs (contentChanges : list TextDocumentContentChangeEvent)
  (activeTextEditor : TextEditor) (this : Pairs) : list Pair :=
  filter (fun pair_ => enclosesPos pair_ (selection_active activeTextEditor))
         (fst (applyContentChanges (recentlyRemovedDueToCursorMove this) contentChanges)).

(** The pair created by a content-change update, if any. *)
Definition createdPairs (contentChanges : list TextDocumentContentChangeEvent)
  (s : Settings) : list Pair :=
  match getNewPair contentChanges s with
  | normal (Some pair_) => [pair_]
  | _ => []
  end.

(** The innermost pair of a list ordered outermost to innermost: its
    last pair, if any. *)
Fixpoint innermost (pairs : list Pair) : option Pair :=
  match pairs with
  | [] => None
  | pair_ :: rest =>
      match rest with
      | [] => Some pair_
      | _ :: _ => innermost rest
      end
  end.

(** A content-change update creates its pair innermost: it either
    creates none, or the pair it creates lies strictly inside the last
    pair of the list it is appended to (the updated pairs followed by the
    recovered ones), or that list is empty. *)
Definition createsInnermost (contentChanges : list TextDocumentContentChangeEvent)
  (activeTextEditor : TextEditor) (this : Pairs) : bool :=
  match getNewPair contentChanges (settings this) with
  | normal (Some created) =>
      match innermost (fst (applyContentChanges (data this) contentChanges)
                       ++ recoveredPairs contentChanges activeTextEditor this) with
      | Some nearest => strictlyInside created nearest
      | None => true
      end
  | _ => true
  end.

Fixpoint newPairsInnermost (events : list Event) (this : Pairs) : bool :=
  match events with
  | [] => true
  | e :: rest =>
      match e with
      | contentChangeEvent contentChanges activeTextEditor =>
          createsInnermost contentChanges activeTextEditor this
      | _ => true
      end
      && newPairsInnermost rest (this_ (handle e this))
  end.

(** The pair update of the specification: both sides go through the
    position delta of one change; the pair is dropped when a side is
    deleted or the sides end on different lines. *)
Module SpecPair.

Definition updateSides (s : Position * Position)
  (contentChange : TextDocumentContentChangeEvent) : option (Position * Position) :=
  match getNewPos (fst s) contentChange, getNewPos (snd s) contentChange with
  | Some o, Some c => if line o =? line c then Some (o, c) else None
  | _, _ => None
  end.

Fixpoint updateSidesAll (s : Position * Position)
  (contentChanges : list TextDocumentContentChangeEvent) : option (Position * Position) :=
  match contentChanges with
  | [] => Some s
  | contentChange :: rest =>
      match updateSides s contentChange with
      | Some s' => updateSidesAll s' rest
      | None => None
      end
  end.

(** The sides of the pairs that survive, in their original order. *)
Definition survivors (pairs : list Pair)
  (contentChanges : list TextDocumentContentChangeEvent) : list (Position * Position) :=
  flat_map (fun pair_ => match updateSidesAll (sides pair_) contentChanges with
                         | Some s => [s]
                         | None => []
                         end) pairs.

(** A position moved by one change that does not delete it. *)
Definition moved (contentChange : TextDocumentContentChangeEvent) (pos : Position)
  : Position :=
  match getNewPos pos contentChange with
  | Some pos' => pos'
  | None => pos
  end.

End SpecPair.

(** The position delta of the specification over a batch: each change in
    order, halting at the first deletion. *)
Fixpoint getNewPosAll (pos : Position)
  (contentChanges : list TextDocumentContentChangeEvent) : option Position :=
  match contentChanges with
  | [] => Some pos
  | contentChange :: rest =>
      match getNewPos pos contentChange with
      | Some pos' => getNewPosAll pos' rest
      | None => None
      end
  end.

(** [start <= pos < end]: the change overwrites the position. *)
Definition overwrites (contentChange : TextDocumentContentChangeEvent) (pos : Position)
  : bool :=
  isAfterOrEqual pos (start (range contentChange))
  && isBefore pos (end_ (range contentChange)).

(** The nesting invariant carried from update to update: the list
    followed by the rescue buffer is strictly properly nested. *)
Definition nestedWithBuffer (this : Pairs) : Prop :=
  properlyNested (data this ++ recentlyRemovedDueToCursorMove this) = true.

(* ================================================================== *)
(** ** Building blocks of the examples *)

(** The insertion of an ASCII text at a position. *)
Definition insertion (pos : Position) (t : string) : TextDocumentContentChangeEvent :=
  mkContentChange (mkRange pos pos) (lit t).

(** A text editor with its cursor at a position, over an empty document. *)
Definition editorAt (pos : Position) : TextEditor := mkTextEditor pos (fun _ => []).

(* ================================================================== *)
(** ** Predicates on tracked pairs and on event sequences *)

(** Both sides of the pair are on one line. *)
Definition sidesOnOneLine (pair_ : Pair) : bool :=
  line (open pair_) =? line (close pair_).

(** The opening side comes strictly before the closing side. *)
Definition openBeforeClose (pair_ : Pair) : bool :=
  isBefore (open pair_) (close pair_).

(** Only the last pair of the list is decorated. *)
Fixpoint onlyLastDecorated (pairs : list Pair) : bool :=
  match pairs with
  | [] => true
  | pair_ :: rest =>
      match rest with
      | [] => isDecorated pair_
      | _ :: _ => negb (isDecorated pair_) && onlyLastDecorated rest
      end
  end.

(** The decorations [reapplyDecorations] aims at. *)
Definition decoratedPerSetting (decorateOnlyNearestPair : bool) (pairs : list Pair)
  : bool :=
  if decorateOnlyNearestPair then onlyLastDecorated pairs
  else forallb isDecorated pairs.

(** No content-change event of the sequence carries an empty batch. *)
Fixpoint batchesNonEmpty (events : list Event) : bool :=
  match events with
  | [] => true
  | contentChangeEvent [] _ :: _ => false
  | _ :: rest => batchesNonEmpty rest
  end.

(** The renderer calls of a sequence of events, oldest first. *)
Fixpoint runCalls (events : list Event) (this : Pairs) : list RendererCall :=
  match events with
  | [] => []
  | e :: rest =>
      rendererCalls (handle e this) ++ runCalls rest (this_ (handle e this))
  end.

(** The change that takes back an insertion: it replaces what [t] came to
    occupy after being inserted at [pos] by the empty string. *)
Definition undoInsertion (pos : Position) (t : JsString)
  : TextDocumentContentChangeEvent :=
  mkContentChange (mkRange pos (getEndPos pos (ofString t))) [].

(* ================================================================== *)
(** ** The engine: one tracker per visible text editor *)

Module Engine.

(** A [TextEditor] object as the key of a [Map] or member of a [Set]:
    its identity. *)
Definition EditorId : Type := nat.

(** A [Tracker] object: its identity, the allocation number of
    [new Tracker(editor)], and the text editor it was created for. The
    class itself (module [./tracker/tracker]) is opaque to the engine. *)
Record Tracker : Type := mkTracker { trackerId : nat; owner : EditorId }.

(** [Map<TextEditor, Tracker>]: the entries in insertion order. *)
Definition TrackerMap : Type := list (EditorId * Tracker).

Fixpoint Map_get (editor : EditorId) (m : TrackerMap) : option Tracker :=
  match m with
  | [] => None
  | (editor', tracker) :: rest =>
      if Nat.eqb editor' editor then Some tracker else Map_get editor rest
  end.

Definition Map_has (editor : EditorId) (m : TrackerMap) : bool :=
  match Map_get editor m with
  | Some _ => true
  | None => false
  end.

(** [m.set(editor, tracker)]: replaces the value of a key already there,
    appends a new key. *)
Fixpoint Map_set (editor : EditorId) (tracker : Tracker) (m : TrackerMap)
  : TrackerMap :=
  match m with
  | [] => [(editor, tracker)]
  | (editor', tracker') :: rest =>
      if Nat.eqb editor' editor then (editor', tracker) :: rest
      else (editor', tracker') :: Map_set editor tracker rest
  end.

(** [new Map(entries)]. *)
Definition Map_new (entries : list (EditorId * Tracker)) : TrackerMap :=
  fold_left (fun m entry => Map_set (fst entry) (snd entry) m) entries [].

(** [Set<TextEditor>]: the members in insertion order. *)
Definition Set_has (editor : EditorId) (s : list EditorId) : bool :=
  existsb (Nat.eqb editor) s.

Definition Set_add (editor : EditorId) (s : list EditorId) : list EditorId :=
  if Set_has editor s then s else s ++ [editor].

(** [new Set(editors)]. *)
Definition Set_new (editors : list EditorId) : list EditorId :=
  fold_left (fun s editor => Set_add editor s) editors [].

(** The fields of [Engine] that hold trackers, and the number of
    [Tracker] objects allocated so far. *)
Record State : Type := mkState {
  trackers : TrackerMap;
  activeTracker : option Tracker;
  allocated : nat
}.

(** First loop of the visible-editors watcher: keep the trackers of the
    text editors still visible, dispose of the rest. Returns the new map
    and the trackers whose [dispose] was called, in order. *)
Fixpoint preserveVisible (entries : TrackerMap) (visibleSet : list EditorId)
  (newTrackers : TrackerMap) : TrackerMap * list Tracker :=
  match entries with
  | [] => (newTrackers, [])
  | (editor, tracker) :: rest =>
      if Set_has editor visibleSet
      then preserveVisible rest visibleSet (Map_set editor tracker newTrackers)
      else let '(m, disposed) := preserveVisible rest visibleSet newTrackers in
           (m, tracker :: disposed)
  end.

(** Second loop: a new tracker for every visible text editor without one. *)
Fixpoint assignNew (visibleSet : list EditorId) (newTrackers : TrackerMap)
  (next : nat) : TrackerMap * nat :=
  match visibleSet with
  | [] => (newTrackers, next)
  | visibleTextEditor :: rest =>
      if negb (Map_has visibleTextEditor newTrackers)
      then assignNew rest
             (Map_set visibleTextEditor (mkTracker next visibleTextEditor) newTrackers)
             (S next)
      else assignNew rest newTrackers next
  end.

(** The watcher of [window.onDidChangeVisibleTextEditors]: the engine
    after it and the trackers it disposed of. *)
Definition onDidChangeVisibleTextEditors (visibleTextEditors : list EditorId)
  (this : State) : State * list Tracker :=
  let visibleSet := Set_new visibleTextEditors in
  let '(kept, disposed) := preserveVisible (trackers this) visibleSet [] in
  let '(newTrackers, next) := assignNew visibleSet kept (allocated this) in
  (mkState newTrackers (activeTracker this) next, disposed).

(** The tracker [rebindActiveTracker] points [activeTracker] to, given
    [window.activeTextEditor]. *)
Definition rebindActiveTracker (window_activeTextEditor : option EditorId)
  (this : State) : State :=
  mkState (trackers this)
          (match window_activeTextEditor with
           | Some activeTextEditor => Map_get activeTextEditor (trackers this)
           | None => None
           end)
          (allocated this).

(** [window.visibleTextEditors.map((e) => [e, new Tracker(e)])]. *)
Fixpoint newEntries (visibleTextEditors : list EditorId) (next : nat)
  : list (EditorId * Tracker) * nat :=
  match visibleTextEditors with
  | [] => ([], next)
  | e :: rest =>
      let '(entries, next') := newEntries rest (S next) in
      ((e, mkTracker next e) :: entries, next')
  end.

(** The constructor, given [window.visibleTextEditors] and
    [window.activeTextEditor]. *)
Definition Engine_new (visibleTextEditors : list EditorId)
  (window_activeTextEditor : option EditorId) : State :=
  let '(entries, next) := newEntries visibleTextEditors 0 in
  rebindActiveTracker window_activeTextEditor (mkState (Map_new entries) None next).

(** The watchers as events. *)
Inductive Event : Type :=
| visibleTextEditorsChanged (visibleTextEditors : list EditorId)
| activeTextEditorChanged (window_activeTextEditor : option EditorId).

Definition handle (e : Event) (this : State) : State :=
  match e with
  | visibleTextEditorsChanged visibleTextEditors =>
      fst (onDidChangeVisibleTextEditors visibleTextEditors this)
  | activeTextEditorChanged window_activeTextEditor =>
      rebindActiveTracker window_activeTextEditor this
  end.

Fixpoint run (events : list Event) (this : State) : State :=
  match events with
  | [] => this
  | e :: rest => run rest (handle e this)
  end.

(** Every entry maps a text editor to a tracker created for it, the
    keys are distinct, and the trackers are distinct objects allocated
    before [allocated]. *)
Definition wellFormed (this : State) : Prop :=
  NoDup (map fst (trackers this)) /\
  NoDup (map (fun entry => trackerId (snd entry)) (trackers this)) /\
  Forall (fun entry => owner (snd entry) = fst entry
                       /\ (trackerId (snd entry) < allocated this)%nat)
         (trackers this).

End Engine.

(* ================================================================== *)
(** * Properties *)

(** ** Order on positions *)

Ltac order_cases :=
  repeat match goal with
         | H : context [Z.ltb ?a ?b] |- _ => destruct (Z.ltb_spec a b)
         | H : context [Z.leb ?a ?b] |- _ => destruct (Z.leb_spec a b)
         | H : context [Z.eqb ?a ?b] |- _ => destruct (Z.eqb_spec a b)
         | H : context [Z.gtb ?a ?b] |- _ => rewrite (Z.gtb_ltb a b) in H
         | |- context [Z.ltb ?a ?b] => destruct (Z.ltb_spec a b)
         | |- context [Z.leb ?a ?b] => destruct (Z.leb_spec a b)
         | |- context [Z.eqb ?a ?b] => destruct (Z.eqb_spec a b)
         | |- context [Z.gtb ?a ?b] => rewrite (Z.gtb_ltb a b)
         end.

Ltac order :=
  unfold landsBetweenSides, enclosesPos, strictlyInside, overwrites, validRange,
    isEmpty, isSingleLine, isAfter, isAfterOrEqual, isBeforeOrEqual, isEqual,
    isBefore in *;
  simpl in *; order_cases; simpl in *;
  try discriminate; try lia; try (f_equal; lia).

Lemma isBefore_lt (a b : Position) :
  isBefore a b = true <->
  line a < line b \/ (line a = line b /\ character a < character b).
Proof. order. Qed.

Lemma isBeforeOrEqual_le (a b : Position) :
  isBeforeOrEqual a b = true <->
  line a < line b \/ (line a = line b /\ character a <= character b).
Proof. order. Qed.

Lemma isBefore_trans (a b c : Position) :
  isBefore a b = true -> isBefore b c = true -> isBefore a c = true.
Proof. order. Qed.

Lemma isBefore_isBeforeOrEqual_trans (a b c : Position) :
  isBefore a b = true -> isBeforeOrEqual b c = true -> isBefore a c = true.
Proof. order. Qed.

Lemma isBeforeOrEqual_isBefore_trans (a b c : Position) :
  isBeforeOrEqual a b = true -> isBefore b c = true -> isBefore a c = true.
Proof. order. Qed.

Lemma isEqual_eq (a b : Position) : isEqual a b = true <-> a = b.
Proof.
  destruct a as [la ca], b as [lb cb]; split; intros H.
  - unfold isEqual in H; simpl in H.
    apply andb_true_iff in H as [H1 H2].
    apply Z.eqb_eq in H1, H2. congruence.
  - inversion H; subst. unfold isEqual; simpl. now rewrite !Z.eqb_refl.
Qed.

(** ** Splitting a text at line feeds *)

Lemma insertedLines_nonneg (s : JsString) : 0 <= SpecText.insertedLines s.
Proof.
  induction s as [|c s IH]; simpl; [lia|].
  destruct (N.eqb c LF); lia.
Qed.

Lemma afterLastLineBreak_no_break (s : JsString) :
  SpecText.insertedLines s = 0 -> SpecText.afterLastLineBreak s = s.
Proof.
  destruct s as [|c s]; [reflexivity|].
  intros H. unfold SpecText.afterLastLineBreak; fold SpecText.afterLastLineBreak.
  rewrite H. reflexivity.
Qed.

Lemma split_LF_length (s : JsString) :
  Z.of_nat (List.length (split_LF s)) - 1 = SpecText.insertedLines s.
Proof.
  induction s as [|c s IH]; [reflexivity|].
  pose proof (insertedLines_nonneg s).
  simpl. destruct (N.eqb c LF).
  - simpl List.length. lia.
  - destruct (split_LF s) as [|piece pieces]; simpl in *; lia.
Qed.

Lemma split_LF_last (s : JsString) :
  last (split_LF s) [] = SpecText.afterLastLineBreak s.
Proof.
  induction s as [|c s IH]; [reflexivity|].
  pose proof (split_LF_length s) as Hlen.
  pose proof (insertedLines_nonneg s) as Hpos.
  unfold SpecText.afterLastLineBreak; fold SpecText.afterLastLineBreak.
  simpl split_LF. simpl SpecText.insertedLines.
  destruct (N.eqb c LF).
  - destruct (Z.ltb_spec 0 (1 + SpecText.insertedLines s)); [|lia].
    rewrite <- IH. destruct (split_LF s); [simpl in Hlen; lia|reflexivity].
  - destruct (split_LF s) as [|piece pieces]; [simpl in Hlen; lia|].
    destruct pieces as [|piece2 pieces].
    + simpl in Hlen. simpl in IH.
      assert (H0 : SpecText.insertedLines s = 0) by lia.
      rewrite H0. simpl. rewrite IH.
      now rewrite (afterLastLineBreak_no_break s H0).
    + destruct (Z.ltb_spec 0 (0 + SpecText.insertedLines s)) as [_|Hle];
        [|simpl List.length in Hlen; lia].
      rewrite <- IH. reflexivity.
Qed.

(** [getEndPos] on a string, in the terms of the specification. *)
Lemma getEndPos_string (startPos : Position) (s : JsString) :
  getEndPos startPos (ofString s) =
  mkPosition (line startPos + SpecText.insertedLines s)
             (SpecText.insertedLastLineLen s
              + (if SpecText.insertedLines s >? 0 then 0 else character startPos)).
Proof.
  unfold getEndPos, SpecText.insertedLastLineLen.
  now rewrite split_LF_length, split_LF_last.
Qed.

(** ** The position delta of one change *)

Lemma getNewPos_cases (p : Position) (c : TextDocumentContentChangeEvent) :
  validRange (range c) ->
  getNewPos p c =
  if overwrites c p then None
  else if isBefore p (start (range c)) then Some p
  else Some (shifted p c).
Proof.
  intros Hrange. unfold getNewPos. fold (overwrites c p).
  destruct (overwrites c p) eqn:Hover; [reflexivity|].
  destruct (isBefore p (start (range c))) eqn:Hbefore; [reflexivity|].
  assert (H1 : isBefore p (end_ (range c)) = false) by order.
  rewrite getEndPos_string.
  unfold Range_new. rewrite H1.
  unfold getEndPos, isSingleLine, shifted. cbn [start end_ line character].
  pose proof (insertedLines_nonneg (text c)).
  f_equal. clear Hover Hbefore. order.
Qed.

(** C1. For a position [p] at or after the end of the replaced range,
    [getNewPos] returns the position whose line is
    [start.line + insertedLines + (p.line - end.line)] and whose character
    is [p.character] when [p.line > end.line], else
    [insertedLastLineLen + (p.character - end.character)] when
    [insertedLines > 0], else
    [start.character + insertedLastLineLen + (p.character - end.character)]. *)
Theorem getNewPos_after_change (p : Position) (c : TextDocumentContentChangeEvent) :
  validRange (range c) ->
  isAfterOrEqual p (end_ (range c)) = true ->
  getNewPos p c =
  Some (mkPosition
          (line (start (range c)) + SpecText.insertedLines (text c)
           + (line p - line (end_ (range c))))
          (if line p >? line (end_ (range c)) then character p
           else if SpecText.insertedLines (text c) >? 0
                then SpecText.insertedLastLineLen (text c)
                     + (character p - character (end_ (range c)))
                else character (start (range c))
                     + SpecText.insertedLastLineLen (text c)
                     + (character p - character (end_ (range c))))).
Proof.
  intros Hrange Hafter.
  rewrite (getNewPos_cases p c Hrange).
  assert (H1 : overwrites c p = false) by order.
  assert (H2 : isBefore p (start (range c)) = false) by order.
  now rewrite H1, H2.
Qed.

Lemma getNewPos_after_change_witness :
  getNewPos (mkPosition 3 7)
            (mkContentChange (mkRange (mkPosition 1 2) (mkPosition 3 4))
                             (lit "ab
cde")) = Some (mkPosition 2 6).
Proof.
  exact (getNewPos_after_change (mkPosition 3 7)
           (mkContentChange (mkRange (mkPosition 1 2) (mkPosition 3 4))
                            (lit "ab
cde"))
           eq_refl eq_refl).
Defined.

(** C6 (amended). [getNewPos] reports a deletion exactly when the change
    overwrites the position, [start <= pos < end]: a position equal to the
    start of a non-empty replaced range is deleted, a position equal to
    its end is not. Over a batch, the delta reports a deletion exactly
    when some change overwrites the image of the position under the
    changes before it. *)
Theorem getNewPos_deleted_iff_overwritten :
  (forall pos c, getNewPos pos c = None <-> overwrites c pos = true) /\
  (forall pos contentChanges,
      getNewPosAll pos contentChanges = None <->
      exists before c after pos',
        contentChanges = before ++ c :: after /\
        getNewPosAll pos before = Some pos' /\
        overwrites c pos' = true).
Proof.
  assert (Hone : forall pos c, getNewPos pos c = None <-> overwrites c pos = true).
  { intros pos c. unfold getNewPos, overwrites.
    destruct (isAfterOrEqual pos (start (range c)) && isBefore pos (end_ (range c))).
    - tauto.
    - destruct (isBefore pos (start (range c))); split; discriminate. }
  split; [exact Hone|].
  intros pos contentChanges. revert pos.
  induction contentChanges as [|c rest IH]; intros pos.
  - split; [discriminate|].
    intros (before & c & after & pos' & Heq & _). destruct before; discriminate.
  - simpl. destruct (getNewPos pos c) as [pos1|] eqn:Hc.
    + rewrite IH. split.
      * intros (before & c' & after & pos' & Heq & Hbefore & Hover).
        exists (c :: before), c', after, pos'. subst rest. simpl.
        rewrite Hc. auto.
      * intros (before & c' & after & pos' & Heq & Hbefore & Hover).
        destruct before as [|b before]; simpl in *.
        -- inversion Heq; subst. inversion Hbefore; subst.
           apply Hone in Hover. congruence.
        -- inversion Heq; subst. rewrite Hc in Hbefore.
           exists before, c', after, pos'. auto.
    + split; [intros _|reflexivity].
      exists [], c, rest, pos. simpl. repeat split. now apply Hone.
Qed.

(** C6, as stated, fails: a position equal to the start of a replaced
    range is reported deleted. *)
Lemma getNewPos_deletes_range_start :
  let pos := mkPosition 0 0 in
  let c := mkContentChange (mkRange (mkPosition 0 0) (mkPosition 0 1)) (lit "") in
  validRange (range c) /\
  isEqual pos (start (range c)) = true /\
  isBefore (start (range c)) pos = false /\
  getNewPos pos c = None.
Proof. repeat split. Qed.

(** ** Line of sight *)

Lemma trimStart_nil_iff (s : JsString) :
  trimStart s = [] <-> forallb isWhiteSpace s = true.
Proof.
  induction s as [|c s IH]; simpl; [tauto|].
  destruct (isWhiteSpace c); simpl; [exact IH|].
  split; discriminate.
Qed.

Lemma forallb_trimStart (s : JsString) :
  forallb isWhiteSpace (trimStart s) = forallb isWhiteSpace s.
Proof.
  induction s as [|c s IH]; simpl; [reflexivity|].
  destruct (isWhiteSpace c) eqn:Hc; simpl; [exact IH|].
  now rewrite Hc.
Qed.

Lemma forallb_rev_eq {A : Type} (f : A -> bool) (l : list A) :
  forallb f (rev l) = forallb f l.
Proof.
  induction l as [|a l IH]; simpl; [reflexivity|].
  rewrite forallb_app, IH. simpl. rewrite andb_true_r. apply andb_comm.
Qed.

(** The trimmed text is empty exactly when every code unit is white space. *)
Lemma trim_empty_iff (s : JsString) :
  (JsString.length (trim s) =? 0) = forallb isWhiteSpace s.
Proof.
  rewrite <- (forallb_trimStart s), <- (forallb_rev_eq _ (trimStart s)).
  unfold trim, trimEnd, JsString.length.
  rewrite length_rev.
  destruct (forallb isWhiteSpace (rev (trimStart s))) eqn:Hws.
  - apply trimStart_nil_iff in Hws. now rewrite Hws.
  - destruct (trimStart (rev (trimStart s))) eqn:Ht.
    + apply trimStart_nil_iff in Ht. congruence.
    + simpl List.length. apply Z.eqb_neq. lia.
Qed.

Lemma nth_error_last_index {A : Type} (l : list A) (a : A) :
  nth_error (l ++ [a]) (List.length (l ++ [a]) - 1) = Some a.
Proof.
  rewrite length_app. simpl.
  replace (List.length l + 1 - 1)%nat with (List.length l) by lia.
  rewrite nth_error_app2 by lia.
  now rewrite Nat.sub_diag.
Qed.

(** [mostNested] is the last pair of the list, the one [hasLineOfSight] reads. *)
Lemma mostNested_last (outer : list Pair) (nearest : Pair) (removed : list Pair)
  (s : Settings) :
  mostNested (mkPairs (outer ++ [nearest]) removed s) = Some nearest.
Proof. unfold mostNested. simpl. apply nth_error_last_index. Qed.

(** C7. With an active text editor, [hasLineOfSight] is true exactly when
    the list is non-empty and the text between the cursor and the closing
    side of the innermost (last) pair holds only white space; it is false
    whenever no pair is tracked. *)
Theorem hasLineOfSight_iff_only_whitespace :
  (forall editor this,
      hasLineOfSight (Some editor) this = true <->
      data this <> [] /\
      exists outer nearest,
        data this = outer ++ [nearest] /\
        forallb isWhiteSpace
          (document_getText editor
             (Range_new (selection_active editor) (close nearest))) = true) /\
  (forall window_activeTextEditor removed s,
      hasLineOfSight window_activeTextEditor (mkPairs [] removed s) = false).
Proof.
  split.
  - intros editor this. unfold hasLineOfSight.
    generalize (data this) as pairs. intros pairs.
    destruct pairs as [|x l _] using rev_ind.
    + simpl. split; [discriminate|]. intros [H _]. now elim H.
    + rewrite nth_error_last_index.
      replace (Z.of_nat (List.length (l ++ [x])) <? 1) with false
        by (rewrite length_app; simpl; symmetry; apply Z.ltb_ge; lia).
      rewrite trim_empty_iff. split.
      * intros H. split; [now destruct l|]. exists l, x. auto.
      * intros (_ & outer & nearest & Heq & H).
        apply app_inj_tail in Heq as [_ ->]. exact H.
  - intros [editor|] removed s; reflexivity.
Qed.

(** C10. Without an active text editor [hasLineOfSight] is false however
    many pairs are tracked, so it can be false while the list is
    non-empty. *)
Theorem hasLineOfSight_false_without_editor :
  (forall this, hasLineOfSight None this = false) /\
  (exists this, data this <> [] /\ Pairs_isEmpty this = false /\
                hasLineOfSight None this = false).
Proof.
  split; [reflexivity|].
  exists (mkPairs [Pair_new (mkPosition 0 0) (mkPosition 0 1) (mkRenderOptions [])]
                  [] (mkSettings [] (mkRenderOptions []) true)).
  repeat split. discriminate.
Qed.

(** ** Clearing *)

(** C8. [clear] is idempotent: after one call the list and the rescue
    buffer are empty, every pair held got one [undecorate] call, and a
    second call leaves the same container and makes no renderer call. *)
Theorem clear_idempotent (this : Pairs) :
  this_ (clear (this_ (clear this))) = this_ (clear this) /\
  rendererCalls (clear (this_ (clear this))) = [] /\
  data (this_ (clear this)) = [] /\
  recentlyRemovedDueToCursorMove (this_ (clear this)) = [] /\
  rendererCalls (clear this) = map undecorateCall (data this).
Proof. repeat split. Qed.

(** ** Decoration leaves the sides of pairs alone *)

Lemma map_sides_undecorate (pairs : list Pair) :
  map sides (map undecorate pairs) = map sides pairs.
Proof. rewrite map_map. reflexivity. Qed.

Lemma map_sides_decorate (pairs : list Pair) :
  map sides (map decorate pairs) = map sides pairs.
Proof. rewrite map_map. reflexivity. Qed.

Lemma map_sides_decorateLast (pairs : list Pair) :
  map sides (fst (decorateLast pairs)) = map sides pairs.
Proof.
  induction pairs as [|p rest IH]; [reflexivity|].
  destruct rest as [|q rest]; [reflexivity|].
  change (decorateLast (p :: q :: rest))
    with (let '(rest', calls) := decorateLast (q :: rest) in (p :: rest', calls)).
  destruct (decorateLast (q :: rest)) as [rest' calls].
  simpl in *. now rewrite IH.
Qed.

Lemma map_sides_reapplyDecorations (pairs : list Pair) (onlyNearest : bool) :
  map sides (fst (reapplyDecorations pairs onlyNearest)) = map sides pairs.
Proof.
  unfold reapplyDecorations, removeDecorations.
  destruct (Z.of_nat (List.length pairs) <? 1); [reflexivity|].
  destruct onlyNearest.
  - pose proof (map_sides_decorateLast (map undecorate pairs)) as H.
    destruct (decorateLast (map undecorate pairs)) as [decorated calls].
    simpl in *. now rewrite H, map_sides_undecorate.
  - simpl. now rewrite map_sides_decorate, map_sides_undecorate.
Qed.

Lemma enclosesPos_sides (p q : Pair) (pos : Position) :
  sides p = sides q -> enclosesPos p pos = enclosesPos q pos.
Proof. unfold sides, enclosesPos. intros H. inversion H. congruence. Qed.

Lemma strictlyInside_sides (p p' q q' : Pair) :
  sides p = sides p' -> sides q = sides q' ->
  strictlyInside p q = strictlyInside p' q'.
Proof.
  unfold sides, strictlyInside. intros H1 H2. inversion H1. inversion H2.
  congruence.
Qed.

Lemma properlyNested_sides (pairs pairs' : list Pair) :
  map sides pairs = map sides pairs' ->
  properlyNested pairs = properlyNested pairs'.
Proof.
  revert pairs'. induction pairs as [|p rest IH]; intros [|p' rest'] H;
    try discriminate; [reflexivity|].
  simpl in H.
  assert (Hp : sides p = sides p') by congruence.
  assert (Hrest : map sides rest = map sides rest') by congruence.
  specialize (IH rest' Hrest).
  destruct rest as [|q rest]; destruct rest' as [|q' rest']; try discriminate;
    [reflexivity|].
  assert (Hq : sides q = sides q') by (simpl in Hrest; congruence).
  change (strictlyInside q p && properlyNested (q :: rest)
          = strictlyInside q' p' && properlyNested (q' :: rest')).
  now rewrite IH, (strictlyInside_sides q q' p p' Hq Hp).
Qed.

(** ** The two loops as filters *)

Lemma removeEscapedPairs_filter (pairs : list Pair) (editor : TextEditor) :
  removeEscapedPairs pairs editor =
  (filter (fun p => enclosesPos p (selection_active editor)) pairs,
   filter (fun p => negb (enclosesPos p (selection_active editor))) pairs).
Proof.
  induction pairs as [|p rest IH]; [reflexivity|].
  simpl. rewrite IH.
  destruct (enclosesPos p (selection_active editor)); reflexivity.
Qed.

Lemma applyContentChanges_app (pairs1 pairs2 : list Pair)
  (contentChanges : list TextDocumentContentChangeEvent) :
  fst (applyContentChanges (pairs1 ++ pairs2) contentChanges) =
  fst (applyContentChanges pairs1 contentChanges)
  ++ fst (applyContentChanges pairs2 contentChanges).
Proof.
  induction pairs1 as [|p rest IH]; [reflexivity|].
  simpl.
  destruct (applyContentChanges (rest ++ pairs2) contentChanges) as [u r].
  destruct (applyContentChanges rest contentChanges) as [u1 r1].
  simpl in IH. subst u.
  destruct (applyToPair p contentChanges); reflexivity.
Qed.

Lemma applyContentChanges_In (pairs : list Pair)
  (contentChanges : list TextDocumentContentChangeEvent) (p' : Pair) :
  In p' (fst (applyContentChanges pairs contentChanges)) <->
  exists p, In p pairs /\ applyToPair p contentChanges = inl p'.
Proof.
  induction pairs as [|q rest IH].
  - simpl. split; [tauto|]. intros (p & [] & _).
  - simpl. destruct (applyContentChanges rest contentChanges) as [u r].
    simpl in IH.
    destruct (applyToPair q contentChanges) as [q'|q'] eqn:Hq; simpl.
    + rewrite IH. split.
      * intros [<-|(p & Hin & Hp)]; [exists q; auto|exists p; auto].
      * intros (p & [<-|Hin] & Hp); [left; congruence|right; exists p; auto].
    + rewrite IH. split.
      * intros (p & Hin & Hp). exists p; auto.
      * intros (p & [<-|Hin] & Hp); [congruence|exists p; auto].
Qed.

(** [applyToPair] agrees with the pair update of the specification. *)
Lemma applyToPair_updateSidesAll (p : Pair)
  (contentChanges : list TextDocumentContentChangeEvent) :
  match applyToPair p contentChanges with
  | inl p' => SpecPair.updateSidesAll (sides p) contentChanges = Some (sides p')
  | inr _ => SpecPair.updateSidesAll (sides p) contentChanges = None
  end.
Proof.
  revert p. induction contentChanges as [|c rest IH]; intros p; [reflexivity|].
  simpl. unfold SpecPair.updateSides. simpl.
  destruct (getNewPos (open p) c) as [o|]; [|reflexivity].
  destruct (getNewPos (close p) c) as [cl|]; [|reflexivity].
  destruct (line o =? line cl); simpl; [|reflexivity].
  apply (IH (setSides p o cl)).
Qed.

(** The sides of a pair that survives a batch are the images of its
    sides under the position delta over that batch. *)
Lemma applyToPair_getNewPosAll (p p' : Pair)
  (contentChanges : list TextDocumentContentChangeEvent) :
  applyToPair p contentChanges = inl p' ->
  getNewPosAll (open p) contentChanges = Some (open p') /\
  getNewPosAll (close p) contentChanges = Some (close p').
Proof.
  revert p. induction contentChanges as [|c rest IH]; intros p; simpl.
  - intros H. inversion H; subst. auto.
  - destruct (getNewPos (open p) c) as [o|]; [|discriminate].
    destruct (getNewPos (close p) c) as [cl|]; [|discriminate].
    destruct (negb (line o =? line cl)); [discriminate|].
    intros H. apply IH in H. exact H.
Qed.

Lemma applyContentChanges_survivors (pairs : list Pair)
  (contentChanges : list TextDocumentContentChangeEvent) :
  map sides (fst (applyContentChanges pairs contentChanges)) =
  SpecPair.survivors pairs contentChanges.
Proof.
  induction pairs as [|p rest IH]; [reflexivity|].
  simpl. destruct (applyContentChanges rest contentChanges) as [u r].
  simpl in IH. pose proof (applyToPair_updateSidesAll p contentChanges) as H.
  destruct (applyToPair p contentChanges); rewrite H; simpl; now rewrite IH.
Qed.

(** ** The shape of the container after each update *)

Lemma updateGivenContentChanges_data
  (contentChanges : list TextDocumentContentChangeEvent) (editor : TextEditor)
  (this : Pairs) :
  map sides (data (this_ (updateGivenContentChanges contentChanges editor this))) =
  map sides (fst (applyContentChanges (data this) contentChanges)
             ++ recoveredPairs contentChanges editor this
             ++ createdPairs contentChanges (settings this)).
Proof.
  unfold updateGivenContentChanges, recoveredPairs, createdPairs.
  destruct (applyContentChanges (recentlyRemovedDueToCursorMove this) contentChanges)
    as [pending dropped].
  destruct (applyContentChanges (data this) contentChanges) as [updated removed].
  simpl fst.
  destruct (getNewPair contentChanges (settings this)) as [[created|]|].
  - unfold removeDecorations.
    pose proof (map_sides_reapplyDecorations
                  ((updated ++ filter (fun p => enclosesPos p (selection_active editor))
                                      pending) ++ [created])
                  (decorateOnlyNearestPair (settings this))) as H.
    destruct (reapplyDecorations _ _) as [data3 calls2].
    simpl in *. now rewrite H, <- app_assoc.
  - unfold removeDecorations.
    pose proof (map_sides_reapplyDecorations
                  (updated ++ filter (fun p => enclosesPos p (selection_active editor))
                                     pending)
                  (decorateOnlyNearestPair (settings this))) as H.
    destruct (reapplyDecorations _ _) as [data3 calls2].
    simpl in *. now rewrite H, app_nil_r.
  - simpl. now rewrite app_nil_r.
Qed.

Lemma updateGivenContentChanges_buffer
  (contentChanges : list TextDocumentContentChangeEvent) (editor : TextEditor)
  (this : Pairs) :
  recentlyRemovedDueToCursorMove
    (this_ (updateGivenContentChanges contentChanges editor this)) = [].
Proof.
  unfold updateGivenContentChanges.
  destruct (applyContentChanges (recentlyRemovedDueToCursorMove this) contentChanges).
  destruct (applyContentChanges (data this) contentChanges).
  destruct (getNewPair contentChanges (settings this)) as [created|]; [|reflexivity].
  unfold removeDecorations. destruct (reapplyDecorations _ _). reflexivity.
Qed.

Lemma updateGivenCursorChanges_data (editor : TextEditor) (this : Pairs) :
  map sides (data (this_ (updateGivenCursorChanges editor this))) =
  map sides (filter (fun p => enclosesPos p (selection_active editor)) (data this)).
Proof.
  unfold updateGivenCursorChanges. rewrite removeEscapedPairs_filter.
  destruct (Z.of_nat (List.length _) >? 0); [|reflexivity].
  unfold removeDecorations.
  pose proof (map_sides_reapplyDecorations
                (filter (fun p => enclosesPos p (selection_active editor)) (data this))
                (decorateOnlyNearestPair (settings this))) as H.
  destruct (reapplyDecorations _ _). simpl in *. exact H.
Qed.

Lemma updateGivenCursorChanges_buffer (editor : TextEditor) (this : Pairs) :
  recentlyRemovedDueToCursorMove (this_ (updateGivenCursorChanges editor this)) =
  map undecorate
      (filter (fun p => negb (enclosesPos p (selection_active editor))) (data this)).
Proof.
  unfold updateGivenCursorChanges. rewrite removeEscapedPairs_filter.
  destruct (filter (fun p => negb (enclosesPos p (selection_active editor)))
                   (data this)) as [|p rest] eqn:Hremoved.
  - reflexivity.
  - replace (Z.of_nat (List.length (p :: rest)) >? 0) with true
      by (simpl List.length; symmetry; apply Z.gtb_lt; lia).
    unfold removeDecorations. destruct (reapplyDecorations _ _). reflexivity.
Qed.

Lemma In_same_sides (p : Pair) (pairs pairs' : list Pair) :
  map sides pairs = map sides pairs' -> In p pairs ->
  exists q, In q pairs' /\ sides q = sides p.
Proof.
  intros Heq Hin. apply (in_map sides) in Hin. rewrite Heq in Hin.
  apply in_map_iff in Hin as (q & Hq & Hin). eauto.
Qed.

(** ** Creation of a pair *)

Lemma strictEquals_eq (s t : JsString) : strictEquals s t = true <-> s = t.
Proof.
  revert t. induction s as [|a s IH]; intros [|b t]; simpl;
    try (split; [discriminate|discriminate]); [tauto|].
  rewrite andb_true_iff, N.eqb_eq, IH. split.
  - intros [-> ->]. reflexivity.
  - intros H. inversion H. auto.
Qed.

(** C3 (amended). A content-change update creates a pair exactly when the
    first change of the batch has an empty range and a text of 2 code
    units equal to a trigger pair, whatever follows it in the batch; the
    pair is then [[start, start + 1 character)], appended after the
    updated and the recovered pairs. *)
Theorem new_pair_iff_first_change_is_trigger :
  (forall contentChanges s created,
      getNewPair contentChanges s = normal (Some created) <->
      exists first rest,
        contentChanges = first :: rest /\
        isEmpty (range first) = true /\
        JsString.length (text first) = 2 /\
        In (text first) (languageRule s) /\
        created = Pair_new (start (range first))
                           (mkPosition (line (start (range first)))
                                       (character (start (range first)) + 1))
                           (settingsDecorationOptions s)) /\
  (forall contentChanges editor this,
      map sides (data (this_ (updateGivenContentChanges contentChanges editor this))) =
      map sides (fst (applyContentChanges (data this) contentChanges)
                 ++ recoveredPairs contentChanges editor this)
      ++ map sides (createdPairs contentChanges (settings this))).
Proof.
  split.
  - intros contentChanges s created. unfold getNewPair.
    destruct contentChanges as [|first rest].
    + split; [discriminate|]. intros (f & r & H & _). discriminate.
    + destruct ((JsString.length (text first) =? 2) && isEmpty (range first)
                && existsb (fun rule => strictEquals (text first) rule)
                           (languageRule s)) eqn:Hcond.
      * apply andb_true_iff in Hcond as [Hcond Hrule].
        apply andb_true_iff in Hcond as [Hlen Hempty].
        apply Z.eqb_eq in Hlen.
        apply existsb_exists in Hrule as (rule & Hin & Heq).
        apply strictEquals_eq in Heq. subst rule.
        split.
        -- intros H. inversion H. exists first, rest. repeat split; auto.
        -- intros (f & r & H & _ & _ & _ & ->). inversion H; subst. reflexivity.
      * split; [discriminate|].
        intros (f & r & H & Hempty & Hlen & Hin & _). inversion H; subst f r.
        rewrite Hempty, Hlen in Hcond. simpl in Hcond.
        assert (existsb (fun rule => strictEquals (text first) rule)
                        (languageRule s) = true); [|congruence].
        apply existsb_exists. exists (text first). split; [exact Hin|].
        now apply strictEquals_eq.
  - intros contentChanges editor this.
    rewrite updateGivenContentChanges_data, !map_app, app_assoc. reflexivity.
Qed.

(** C3, as stated, fails: a batch of two changes whose first one is a
    trigger insertion creates a pair. *)
Lemma new_pair_from_batch_of_two_changes :
  let s := mkSettings [lit "()"] (mkRenderOptions []) true in
  let editor := mkTextEditor (mkPosition 0 1) (fun _ => []) in
  let batch :=
    [mkContentChange (mkRange (mkPosition 0 0) (mkPosition 0 0)) (lit "()");
     mkContentChange (mkRange (mkPosition 5 0) (mkPosition 5 0)) (lit "x")] in
  List.length batch = 2%nat /\
  data (this_ (updateGivenContentChanges batch editor (Pairs_new s))) =
  [mkPair (mkPosition 0 0) (mkPosition 0 1) true (mkRenderOptions [])].
Proof. split; reflexivity. Qed.

(** ** The rescue buffer *)

(** [applyToPair] keeps a pair exactly when the pair update of the
    specification keeps its sides, and gives it the sides that update
    computes. *)
Lemma applyToPair_inl_iff (p p' : Pair)
  (contentChanges : list TextDocumentContentChangeEvent) :
  applyToPair p contentChanges = inl p' <->
  exists o c,
    SpecPair.updateSidesAll (sides p) contentChanges = Some (o, c) /\
    p' = setSides p o c.
Proof.
  revert p. induction contentChanges as [|ch rest IH]; intros p.
  - simpl. split.
    + intros H. inversion H; subst. exists (open p'), (close p').
      split; [reflexivity|]. now destruct p'.
    + intros (o & c & H & ->). inversion H; subst. now destruct p.
  - simpl. unfold SpecPair.updateSides. simpl.
    destruct (getNewPos (open p) ch) as [o1|];
      [|split; [discriminate|intros (o & c & H & _); discriminate]].
    destruct (getNewPos (close p) ch) as [c1|];
      [|split; [discriminate|intros (o & c & H & _); discriminate]].
    destruct (line o1 =? line c1); simpl;
      [|split; [discriminate|intros (o & c & H & _); discriminate]].
    rewrite (IH (setSides p o1 c1)). reflexivity.
Qed.

(** The sides the pair update keeps are the images of the two sides
    under the position delta over the batch; a side reported deleted
    drops the pair. *)
Lemma updateSidesAll_getNewPosAll (s : Position * Position)
  (contentChanges : list TextDocumentContentChangeEvent) (o c : Position) :
  SpecPair.updateSidesAll s contentChanges = Some (o, c) ->
  getNewPosAll (fst s) contentChanges = Some o /\
  getNewPosAll (snd s) contentChanges = Some c.
Proof.
  revert s. induction contentChanges as [|ch rest IH]; intros s; simpl.
  - intros H. inversion H; subst. auto.
  - unfold SpecPair.updateSides.
    destruct (getNewPos (fst s) ch) as [o1|]; [|discriminate].
    destruct (getNewPos (snd s) ch) as [c1|]; [|discriminate].
    destruct (line o1 =? line c1); [|discriminate].
    intros H. apply IH in H. exact H.
Qed.

(** C4. After a cursor-change update the rescue buffer holds the pairs
    that update removed. The content-change update that follows passes
    each of them through the position delta of every change of the batch
    and puts back, after the updated pairs, exactly those whose two sides
    survive on one line and then enclose the cursor of that update, with
    the sides the delta gives them; a pair with a side reported deleted,
    or whose moved sides do not enclose the cursor, is in no field
    afterwards, and the rescue buffer is empty either way. *)
Theorem rescue_buffer_gives_one_chance
  (this : Pairs) (editor1 : TextEditor)
  (contentChanges : list TextDocumentContentChangeEvent) (editor2 : TextEditor) :
  let st1 := this_ (updateGivenCursorChanges editor1 this) in
  let out := updateGivenContentChanges contentChanges editor2 st1 in
  recentlyRemovedDueToCursorMove st1 =
    map undecorate
        (filter (fun p => negb (enclosesPos p (selection_active editor1))) (data this)) /\
  map sides (data (this_ out)) =
    SpecPair.survivors (data st1) contentChanges
    ++ map sides (recoveredPairs contentChanges editor2 st1)
    ++ map sides (createdPairs contentChanges (settings st1)) /\
  (forall p',
      In p' (recoveredPairs contentChanges editor2 st1) <->
      exists p o c,
        In p (data this) /\
        enclosesPos p (selection_active editor1) = false /\
        SpecPair.updateSidesAll (sides p) contentChanges = Some (o, c) /\
        getNewPosAll (open p) contentChanges = Some o /\
        getNewPosAll (close p) contentChanges = Some c /\
        p' = setSides (undecorate p) o c /\
        enclosesPos p' (selection_active editor2) = true) /\
  (forall p,
      getNewPosAll (open p) contentChanges = None \/
      getNewPosAll (close p) contentChanges = None ->
      SpecPair.updateSidesAll (sides p) contentChanges = None /\
      exists dropped, applyToPair p contentChanges = inr dropped) /\
  recentlyRemovedDueToCursorMove (this_ out) = [].
Proof.
  intros st1 out. subst out.
  assert (Hbuf := updateGivenCursorChanges_buffer editor1 this).
  fold st1 in Hbuf.
  split; [exact Hbuf|].
  split; [now rewrite updateGivenContentChanges_data, !map_app,
            applyContentChanges_survivors|].
  split; [|split].
  - intros p'. unfold recoveredPairs. rewrite Hbuf. split.
    + intros Hin. apply filter_In in Hin as [Hin Henc].
      apply applyContentChanges_In in Hin as (q & Hq & Happly).
      apply in_map_iff in Hq as (p & <- & Hp).
      apply filter_In in Hp as [Hp Hout].
      apply applyToPair_inl_iff in Happly as (o & c & Hupdate & ->).
      destruct (updateSidesAll_getNewPosAll _ _ _ _ Hupdate) as [Ho Hc].
      exists p, o, c. repeat split; auto. now apply negb_true_iff.
    + intros (p & o & c & Hp & Hout & Hupdate & _ & _ & -> & Henc).
      apply filter_In. split; [|exact Henc].
      apply applyContentChanges_In. exists (undecorate p). split.
      * apply in_map. apply filter_In. split; [exact Hp|]. now rewrite Hout.
      * apply applyToPair_inl_iff. exists o, c. auto.
  - intros p H.
    assert (Hnone : SpecPair.updateSidesAll (sides p) contentChanges = None).
    { destruct (SpecPair.updateSidesAll (sides p) contentChanges) as [[o c]|] eqn:E;
        [|reflexivity].
      apply updateSidesAll_getNewPosAll in E as [E1 E2]. simpl in *.
      destruct H as [H|H]; congruence. }
    split; [exact Hnone|].
    destruct (applyToPair p contentChanges) as [p'|q] eqn:E; [|eauto].
    apply applyToPair_inl_iff in E as (o & c & E & _). congruence.
  - apply updateGivenContentChanges_buffer.
Qed.

Lemma rescue_buffer_gives_one_chance_witness :
  let p := Pair_new (mkPosition 0 0) (mkPosition 0 1) (mkRenderOptions []) in
  let this := mkPairs [p] [] (mkSettings [lit "()"] (mkRenderOptions []) true) in
  let st1 := this_ (updateGivenCursorChanges (editorAt (mkPosition 0 3)) this) in
  In (Pair_new (mkPosition 0 0) (mkPosition 0 3) (mkRenderOptions []))
     (recoveredPairs [insertion (mkPosition 0 1) "ab"] (editorAt (mkPosition 0 3)) st1) /\
  (exists dropped,
      applyToPair p [mkContentChange (mkRange (mkPosition 0 1) (mkPosition 0 2)) []]
      = inr dropped).
Proof.
  intros p this st1. split.
  - apply (proj1 (proj2 (proj2 (rescue_buffer_gives_one_chance this
                                  (editorAt (mkPosition 0 3))
                                  [insertion (mkPosition 0 1) "ab"]
                                  (editorAt (mkPosition 0 3)))))).
    exists p, (mkPosition 0 0), (mkPosition 0 3).
    repeat split; simpl; auto.
  - apply (proj1 (proj2 (proj2 (proj2 (rescue_buffer_gives_one_chance this
                                  (editorAt (mkPosition 0 3))
                                  [mkContentChange (mkRange (mkPosition 0 1)
                                                            (mkPosition 0 2)) []]
                                  (editorAt (mkPosition 0 3))))))).
    right. reflexivity.
Defined.

(** C9. Every cursor-change update sets the rescue buffer to the pairs it
    removed, empty or not, without reading the previous buffer. After two
    cursor-change updates in a row every pair of the list and of the
    buffer encloses the first cursor, so no pair the first update removed
    is left for a later content-change update to put back. *)
Theorem cursor_update_overwrites_rescue_buffer :
  (forall editor this,
      recentlyRemovedDueToCursorMove (this_ (updateGivenCursorChanges editor this)) =
      map undecorate
          (filter (fun p => negb (enclosesPos p (selection_active editor))) (data this))) /\
  (forall editor pairs buffer s,
      updateGivenCursorChanges editor (mkPairs pairs buffer s) =
      updateGivenCursorChanges editor (mkPairs pairs [] s)) /\
  (forall editor1 editor2 this p,
      let st2 := this_ (updateGivenCursorChanges editor2
                          (this_ (updateGivenCursorChanges editor1 this))) in
      In p (data st2 ++ recentlyRemovedDueToCursorMove st2) ->
      enclosesPos p (selection_active editor1) = true) /\
  (forall editor1 editor2 contentChanges editor3 this p',
      let st2 := this_ (updateGivenCursorChanges editor2
                          (this_ (updateGivenCursorChanges editor1 this))) in
      In p' (recoveredPairs contentChanges editor3 st2) ->
      exists p,
        enclosesPos p (selection_active editor1) = true /\
        enclosesPos p (selection_active editor2) = false /\
        applyToPair p contentChanges = inl p').
Proof.
  assert (Hfirst : forall editor this p,
             In p (data (this_ (updateGivenCursorChanges editor this))) ->
             enclosesPos p (selection_active editor) = true).
  { intros editor this p Hin.
    destruct (In_same_sides p _ _ (updateGivenCursorChanges_data editor this) Hin)
      as (q & Hq & Hsides).
    apply filter_In in Hq as [_ Hq].
    now rewrite <- (enclosesPos_sides q p _ Hsides). }
  assert (Hbuffer : forall editor1 editor2 this q,
             In q (recentlyRemovedDueToCursorMove
                     (this_ (updateGivenCursorChanges editor2
                               (this_ (updateGivenCursorChanges editor1 this))))) ->
             enclosesPos q (selection_active editor1) = true /\
             enclosesPos q (selection_active editor2) = false).
  { intros editor1 editor2 this q Hin.
    rewrite updateGivenCursorChanges_buffer in Hin.
    apply in_map_iff in Hin as (p & <- & Hp).
    apply filter_In in Hp as [Hp Hout].
    apply Hfirst in Hp. apply negb_true_iff in Hout.
    rewrite !(enclosesPos_sides (undecorate p) p) by reflexivity. auto. }
  repeat split.
  - exact updateGivenCursorChanges_buffer.
  - intros editor1 editor2 this p st2 Hin.
    apply in_app_or in Hin as [Hin|Hin].
    + destruct (In_same_sides p _ _ (updateGivenCursorChanges_data editor2 _) Hin)
        as (q & Hq & Hsides).
      apply filter_In in Hq as [Hq _]. apply Hfirst in Hq.
      now rewrite <- (enclosesPos_sides q p _ Hsides).
    + now apply Hbuffer in Hin.
  - intros editor1 editor2 contentChanges editor3 this p' st2 Hin.
    unfold recoveredPairs in Hin.
    apply filter_In in Hin as [Hin _].
    apply applyContentChanges_In in Hin as (q & Hq & Happly).
    apply Hbuffer in Hq as [H1 H2]. exists q. auto.
Qed.

(** ** Moving positions keeps their order *)

Lemma insertedLastLineLen_nonneg (s : JsString) : 0 <= SpecText.insertedLastLineLen s.
Proof. unfold SpecText.insertedLastLineLen, JsString.length. lia. Qed.

Lemma isBefore_false (a b : Position) :
  isBefore a b = false <->
  line b < line a \/ (line a = line b /\ character b <= character a).
Proof. order. Qed.

Lemma overwrites_false (c : TextDocumentContentChangeEvent) (p : Position) :
  overwrites c p = false <->
  isBefore p (start (range c)) = true \/ isBefore p (end_ (range c)) = false.
Proof.
  unfold overwrites, isAfterOrEqual.
  destruct (isBefore p (start (range c))), (isBefore p (end_ (range c)));
    simpl; intuition congruence.
Qed.

Ltac order_props :=
  repeat match goal with
         | H : validRange _ |- _ => unfold validRange in H
         | H : isBefore _ _ = true |- _ => apply isBefore_lt in H
         | H : isBefore _ _ = false |- _ => apply isBefore_false in H
         | H : isBeforeOrEqual _ _ = true |- _ => apply isBeforeOrEqual_le in H
         | H : overwrites _ _ = false |- _ => apply overwrites_false in H
         | |- isBefore _ _ = true => apply isBefore_lt
         | |- isBeforeOrEqual _ _ = true => apply isBeforeOrEqual_le
         | |- isBefore _ _ = false => apply isBefore_false
         end.

(** Two positions that survive a change keep their strict order. *)
Lemma getNewPos_strictly_monotone (p q p' q' : Position)
  (c : TextDocumentContentChangeEvent) :
  validRange (range c) ->
  isBefore p q = true ->
  getNewPos p c = Some p' -> getNewPos q c = Some q' ->
  isBefore p' q' = true.
Proof.
  intros Hrange Hpq.
  rewrite !(getNewPos_cases _ c Hrange).
  pose proof (insertedLines_nonneg (text c)) as Hk.
  pose proof (insertedLastLineLen_nonneg (text c)) as Hl.
  unfold shifted.
  generalize dependent (SpecText.insertedLines (text c)).
  generalize dependent (SpecText.insertedLastLineLen (text c)).
  intros len Hl k Hk.
  destruct (overwrites c p) eqn:Hop; [discriminate|].
  destruct (overwrites c q) eqn:Hoq; [discriminate|].
  destruct (isBefore p (start (range c))) eqn:Hbp;
    destruct (isBefore q (start (range c))) eqn:Hbq;
    intros Hp Hq; inversion Hp; inversion Hq; subst p' q'; clear Hp Hq;
    order_props; cbn [line character] in *;
    repeat match goal with
           | |- context [Z.gtb ?a ?b] => destruct (Z.gtb_spec a b)
           end;
    repeat match goal with
           | H : _ \/ _ |- _ => destruct H; order_props
           end; lia.
Qed.


(** The positions [getNewPos] builds have non-negative coordinates, so
    the constructor of [Position] accepts them. *)
Lemma getNewPos_validPosition (p p' : Position) (c : TextDocumentContentChangeEvent) :
  validRange (range c) ->
  validPosition p -> validPosition (start (range c)) ->
  getNewPos p c = Some p' ->
  validPosition p'.
Proof.
  intros Hrange [Hpl Hpc] [Hsl Hsc].
  rewrite (getNewPos_cases _ c Hrange).
  pose proof (insertedLines_nonneg (text c)) as Hk.
  pose proof (insertedLastLineLen_nonneg (text c)) as Hl.
  destruct (overwrites c p) eqn:Hover; [discriminate|].
  destruct (isBefore p (start (range c))) eqn:Hbefore;
    intros H; inversion H; subst p'; [split; assumption|].
  assert (Hend : isBefore p (end_ (range c)) = false).
  { apply overwrites_false in Hover as [Hover|Hover]; [congruence|exact Hover]. }
  clear Hover H. unfold validPosition, shifted. cbn [line character].
  order_props.
  repeat match goal with
         | |- context [Z.gtb ?a ?b] => destruct (Z.gtb_spec a b)
         end; lia.
Qed.

(** ** Nesting *)

Lemma holds_trans (a b c : Pair) : holds a b -> holds b c -> holds a c.
Proof.
  unfold holds, strictlyInside. intros H1 H2.
  apply andb_true_iff in H1 as [H1 H1c]. apply andb_true_iff in H1 as [H1a H1b].
  apply andb_true_iff in H2 as [H2 H2c]. apply andb_true_iff in H2 as [H2a H2b].
  rewrite H2b, (isBefore_trans _ _ _ H1a H2a), (isBefore_trans _ _ _ H2c H1c).
  reflexivity.
Qed.

Lemma properlyNested_Sorted (pairs : list Pair) :
  properlyNested pairs = true <-> Sorted holds pairs.
Proof.
  induction pairs as [|p rest IH]; [split; auto|].
  destruct rest as [|q rest].
  - split; auto.
  - change (properlyNested (p :: q :: rest))
      with (strictlyInside q p && properlyNested (q :: rest)).
    rewrite andb_true_iff, IH. split.
    + intros [H1 H2]. constructor; [exact H2|]. constructor. exact H1.
    + intros H. inversion H as [|? ? Hs Hhd]; subst. inversion Hhd; subst. auto.
Qed.

Lemma properlyNested_StronglySorted (pairs : list Pair) :
  properlyNested pairs = true <-> StronglySorted holds pairs.
Proof.
  rewrite properlyNested_Sorted. split.
  - apply Sorted_StronglySorted. intros a b c. apply holds_trans.
  - apply StronglySorted_Sorted.
Qed.

Lemma nested_app_filter (f : Pair -> bool) (pairs1 pairs2 : list Pair) :
  StronglySorted holds (pairs1 ++ pairs2) ->
  StronglySorted holds (pairs1 ++ filter f pairs2).
Proof.
  induction pairs1 as [|p rest IH]; simpl.
  - induction pairs2 as [|q rest IH]; simpl; [auto|].
    intros H. apply StronglySorted_inv in H as [Hrest Hall].
    destruct (f q); [|auto].
    constructor; [auto|].
    apply Forall_forall. intros x Hx. apply filter_In in Hx as [Hx _].
    rewrite Forall_forall in Hall. auto.
  - intros H. apply StronglySorted_inv in H as [Hrest Hall].
    constructor; [auto|].
    apply Forall_app in Hall as [Hall1 Hall2].
    apply Forall_app. split; [exact Hall1|].
    apply Forall_forall. intros x Hx. apply filter_In in Hx as [Hx _].
    rewrite Forall_forall in Hall2. auto.
Qed.

Lemma nested_app_l (pairs1 pairs2 : list Pair) :
  StronglySorted holds (pairs1 ++ pairs2) -> StronglySorted holds pairs1.
Proof.
  intros H. apply (nested_app_filter (fun _ => false)) in H.
  replace (filter (fun _ : Pair => false) pairs2) with (@nil Pair) in H
    by (induction pairs2; auto).
  now rewrite app_nil_r in H.
Qed.

Lemma nested_snoc (pairs : list Pair) (innermost : Pair) :
  StronglySorted holds pairs ->
  Forall (fun p => holds p innermost) pairs ->
  StronglySorted holds (pairs ++ [innermost]).
Proof.
  induction pairs as [|p rest IH]; simpl; intros Hs Hall.
  - constructor; constructor.
  - apply StronglySorted_inv in Hs as [Hrest Hp].
    inversion Hall; subst.
    constructor; [auto|].
    apply Forall_app. split; [exact Hp|]. constructor; auto.
Qed.

(** A pair the cursor is outside of holds no pair the cursor is inside of. *)
Lemma enclosesPos_outer (outer inner : Pair) (pos : Position) :
  holds outer inner -> enclosesPos inner pos = true -> enclosesPos outer pos = true.
Proof.
  unfold holds, strictlyInside, enclosesPos. intros H1 H2.
  apply andb_true_iff in H1 as [H1 H1c]. apply andb_true_iff in H1 as [H1a H1b].
  apply andb_true_iff in H2 as [H2a H2b].
  apply andb_true_iff. split; order_props; lia.
Qed.

(** The pairs a cursor-change update removes are the innermost ones. *)
Lemma removeEscapedPairs_splits_nested (pairs : list Pair) (pos : Position) :
  StronglySorted holds pairs ->
  filter (fun p => enclosesPos p pos) pairs
  ++ filter (fun p => negb (enclosesPos p pos)) pairs = pairs.
Proof.
  induction pairs as [|p rest IH]; [reflexivity|].
  intros H. apply StronglySorted_inv in H as [Hrest Hall].
  simpl. destruct (enclosesPos p pos) eqn:Hp; simpl.
  - now rewrite IH.
  - assert (Hnone : forall q, In q rest -> enclosesPos q pos = false).
    { intros q Hq. rewrite Forall_forall in Hall.
      destruct (enclosesPos q pos) eqn:Hq'; [|reflexivity].
      rewrite (enclosesPos_outer p q pos (Hall q Hq) Hq') in Hp. discriminate. }
    clear IH Hrest Hall.
    assert (H : filter (fun q => enclosesPos q pos) rest = []
                /\ filter (fun q => negb (enclosesPos q pos)) rest = rest).
    { induction rest as [|q rest IH]; [split; reflexivity|].
      simpl. rewrite (Hnone q (or_introl eq_refl)). simpl.
      destruct IH as [IH1 IH2]; [intros; apply Hnone; now right|].
      now rewrite IH1, IH2. }
    destruct H as [H1 H2]. now rewrite H1, H2.
Qed.

(** Moving two nested pairs through a batch keeps them nested. *)
Lemma applyToPair_holds (contentChanges : list TextDocumentContentChangeEvent)
  (p q p' q' : Pair) :
  validChanges contentChanges = true ->
  holds p q ->
  applyToPair p contentChanges = inl p' ->
  applyToPair q contentChanges = inl q' ->
  holds p' q'.
Proof.
  revert p q. induction contentChanges as [|c rest IH]; intros p q Hvalid Hpq.
  - simpl. intros Hp Hq. inversion Hp; inversion Hq; subst. exact Hpq.
  - simpl in Hvalid. apply andb_true_iff in Hvalid as [Hc Hrest].
    simpl.
    destruct (getNewPos (open p) c) as [po|] eqn:Hpo; [|discriminate].
    destruct (getNewPos (close p) c) as [pc|] eqn:Hpc; [|discriminate].
    destruct (getNewPos (open q) c) as [qo|] eqn:Hqo; [|discriminate].
    destruct (getNewPos (close q) c) as [qc|] eqn:Hqc; [|discriminate].
    destruct (negb (line po =? line pc)); [discriminate|].
    destruct (negb (line qo =? line qc)); [discriminate|].
    apply IH; [exact Hrest|].
    unfold holds, strictlyInside in *. simpl.
    apply andb_true_iff in Hpq as [Hpq H3]. apply andb_true_iff in Hpq as [H1 H2].
    rewrite (getNewPos_strictly_monotone _ _ _ _ c Hc H1 Hpo Hqo),
            (getNewPos_strictly_monotone _ _ _ _ c Hc H2 Hqo Hqc),
            (getNewPos_strictly_monotone _ _ _ _ c Hc H3 Hqc Hpc).
    reflexivity.
Qed.

Lemma applyContentChanges_nested (pairs : list Pair)
  (contentChanges : list TextDocumentContentChangeEvent) :
  validChanges contentChanges = true ->
  StronglySorted holds pairs ->
  StronglySorted holds (fst (applyContentChanges pairs contentChanges)).
Proof.
  intros Hvalid. induction pairs as [|p rest IH]; intros Hs; [constructor|].
  apply StronglySorted_inv in Hs as [Hrest Hall].
  specialize (IH Hrest).
  pose proof (applyContentChanges_In rest contentChanges) as Hin.
  simpl. destruct (applyContentChanges rest contentChanges) as [u r].
  simpl in *.
  destruct (applyToPair p contentChanges) as [p'|p'] eqn:Hp; simpl; [|exact IH].
  constructor; [exact IH|].
  apply Forall_forall. intros q' Hq'.
  apply Hin in Hq' as (q & Hq & Happly).
  rewrite Forall_forall in Hall.
  exact (applyToPair_holds contentChanges p q p' q' Hvalid (Hall q Hq) Hp Happly).
Qed.

Lemma getNewPair_first (first : TextDocumentContentChangeEvent)
  (rest : list TextDocumentContentChangeEvent) (s : Settings) (created : Pair) :
  getNewPair (first :: rest) s = normal (Some created) ->
  JsString.length (text first) = 2 /\
  end_ (range first) = start (range first) /\
  sides created = (start (range first),
                   mkPosition (line (start (range first)))
                              (character (start (range first)) + 1)).
Proof.
  unfold getNewPair.
  destruct (JsString.length (text first) =? 2) eqn:Hlen; [|discriminate].
  destruct (isEmpty (range first)) eqn:Hempty; [|discriminate].
  destruct (existsb _ _); [|discriminate].
  simpl. intros H. inversion H; subst created.
  apply Z.eqb_eq in Hlen. apply isEqual_eq in Hempty. auto.
Qed.

(** The pair created by a single insertion lies strictly within every
    surviving pair the insertion landed in. *)
Lemma created_pair_innermost (first : TextDocumentContentChangeEvent) (s : Settings)
  (created q q' : Pair) :
  getNewPair [first] s = normal (Some created) ->
  landsBetweenSides (start (range first)) q = true ->
  applyToPair q [first] = inl q' ->
  holds q' created.
Proof.
  intros Hnew Hlands Happly.
  apply getNewPair_first in Hnew as (Hlen & Hend & Hsides).
  assert (Hvalid : validRange (range first)).
  { unfold validRange. rewrite Hend. apply isBeforeOrEqual_le. lia. }
  unfold landsBetweenSides in Hlands.
  apply andb_true_iff in Hlands as [Hopen Hclose].
  simpl in Happly. rewrite !(getNewPos_cases _ _ Hvalid) in Happly.
  assert (H1 : overwrites first (open q) = false).
  { apply overwrites_false. now left. }
  assert (H2 : overwrites first (close q) = false).
  { apply overwrites_false. right. rewrite Hend. order_props. lia. }
  assert (H3 : isBefore (close q) (start (range first)) = false).
  { order_props. lia. }
  rewrite H1, H2, H3, Hopen in Happly.
  destruct (Z.eqb_spec (line (open q)) (line (shifted (close q) first)))
    as [Hline|Hline]; simpl in Happly; [|discriminate].
  inversion Happly; subst q'. clear Happly H1 H2 H3.
  pose proof (insertedLines_nonneg (text first)) as Hk.
  unfold shifted in *. rewrite Hend in *. cbn [line character] in Hline.
  order_props.
  assert (Hk0 : SpecText.insertedLines (text first) = 0) by lia.
  assert (Hl : SpecText.insertedLastLineLen (text first) = 2).
  { unfold SpecText.insertedLastLineLen.
    now rewrite (afterLastLineBreak_no_break _ Hk0). }
  destruct created as [co cc cd copts].
  unfold holds, strictlyInside, sides in *. cbn [open close setSides] in *.
  inversion Hsides; subst co cc.
  rewrite Hk0, Hl.
  repeat (apply andb_true_iff; split); order_props; cbn [line character];
    repeat match goal with
           | |- context [Z.gtb ?a ?b] => destruct (Z.gtb_spec a b)
           end; lia.
Qed.

(** ** The nesting invariant over the list and the rescue buffer *)

Lemma updateGivenCursorChanges_nested (editor : TextEditor) (this : Pairs) :
  nestedWithBuffer this ->
  nestedWithBuffer (this_ (updateGivenCursorChanges editor this)).
Proof.
  unfold nestedWithBuffer. intros H.
  apply properlyNested_StronglySorted, nested_app_l in H.
  rewrite (properlyNested_sides _ (data this)).
  - now apply properlyNested_StronglySorted.
  - rewrite map_app, updateGivenCursorChanges_data, updateGivenCursorChanges_buffer,
      map_sides_undecorate, <- map_app.
    now rewrite removeEscapedPairs_splits_nested.
Qed.

Lemma innermost_snoc (pairs : list Pair) (nearest : Pair) :
  innermost (pairs ++ [nearest]) = Some nearest.
Proof.
  induction pairs as [|p rest IH]; [reflexivity|].
  change ((p :: rest) ++ [nearest]) with (p :: (rest ++ [nearest])).
  destruct (rest ++ [nearest]) as [|q l] eqn:E; [destruct rest; discriminate|].
  exact IH.
Qed.

Lemma nested_app_r (pairs1 pairs2 : list Pair) :
  StronglySorted holds (pairs1 ++ pairs2) -> StronglySorted holds pairs2.
Proof.
  induction pairs1 as [|p rest IH]; simpl; [auto|].
  intros H. apply StronglySorted_inv in H as [H _]. auto.
Qed.

Lemma nested_snoc_inv (pairs : list Pair) (nearest : Pair) :
  StronglySorted holds (pairs ++ [nearest]) ->
  Forall (fun p => holds p nearest) pairs.
Proof.
  induction pairs as [|p rest IH]; simpl; intros H; [constructor|].
  apply StronglySorted_inv in H as [Hrest Hall].
  constructor; [|auto].
  rewrite Forall_forall in Hall. apply Hall. apply in_or_app. right. now left.
Qed.

(** Appending a pair keeps a nested list nested exactly when the pair
    lies strictly inside the last pair of the list. *)
Lemma nested_snoc_innermost (pairs : list Pair) (created : Pair) :
  StronglySorted holds pairs ->
  (StronglySorted holds (pairs ++ [created]) <->
   match innermost pairs with
   | Some nearest => strictlyInside created nearest
   | None => true
   end = true).
Proof.
  intros Hs. destruct pairs as [|nearest outer _] using rev_ind.
  - simpl. split; [reflexivity|]. intros _. repeat constructor.
  - rewrite innermost_snoc. split.
    + intros H. rewrite <- app_assoc in H. apply nested_app_r in H.
      apply StronglySorted_inv in H as [_ H]. now inversion H.
    + intros H. apply nested_snoc; [exact Hs|].
      apply Forall_app. split; [|repeat constructor; exact H].
      pose proof (nested_snoc_inv _ _ Hs) as Hall.
      rewrite Forall_forall in *. intros p Hp.
      exact (holds_trans p nearest created (Hall p Hp) H).
Qed.

Lemma innermost_In (pairs : list Pair) (nearest : Pair) :
  innermost pairs = Some nearest -> In nearest pairs.
Proof.
  destruct pairs as [|q outer _] using rev_ind; [discriminate|].
  rewrite innermost_snoc. intros H. inversion H; subst.
  apply in_or_app. right. now left.
Qed.

(** A single insertion that lands between the sides of every pair of the
    list and of the rescue buffer creates its pair innermost. *)
Lemma insertion_between_sides_creates_innermost
  (first : TextDocumentContentChangeEvent) (editor : TextEditor) (this : Pairs) :
  forallb (landsBetweenSides (start (range first)))
          (data this ++ recentlyRemovedDueToCursorMove this) = true ->
  createsInnermost [first] editor this = true.
Proof.
  intros Hlands. unfold createsInnermost.
  destruct (getNewPair [first] (settings this)) as [[created|]|] eqn:Hnew;
    [|reflexivity|reflexivity].
  destruct (innermost _) as [q'|] eqn:Hq'; [|reflexivity].
  apply innermost_In in Hq'.
  assert (Hq : exists q, In q (data this ++ recentlyRemovedDueToCursorMove this)
                         /\ applyToPair q [first] = inl q').
  { apply in_app_or in Hq' as [Hq'|Hq'].
    - apply applyContentChanges_In in Hq' as (q & Hq & Happly).
      exists q. split; [apply in_or_app; now left|exact Happly].
    - unfold recoveredPairs in Hq'. apply filter_In in Hq' as [Hq' _].
      apply applyContentChanges_In in Hq' as (q & Hq & Happly).
      exists q. split; [apply in_or_app; now right|exact Happly]. }
  destruct Hq as (q & Hq & Happly).
  rewrite forallb_forall in Hlands.
  exact (created_pair_innermost first (settings this) created q q' Hnew
           (Hlands q Hq) Happly).
Qed.

Lemma updateGivenContentChanges_nested
  (contentChanges : list TextDocumentContentChangeEvent) (editor : TextEditor)
  (this : Pairs) :
  validChanges contentChanges = true ->
  createsInnermost contentChanges editor this = true ->
  nestedWithBuffer this ->
  nestedWithBuffer (this_ (updateGivenContentChanges contentChanges editor this)).
Proof.
  unfold nestedWithBuffer. intros Hvalid Hcreate H.
  rewrite updateGivenContentChanges_buffer, app_nil_r.
  rewrite (properlyNested_sides _ _ (updateGivenContentChanges_data _ _ _)).
  apply properlyNested_StronglySorted.
  apply properlyNested_StronglySorted in H.
  apply (applyContentChanges_nested _ contentChanges Hvalid) in H.
  rewrite applyContentChanges_app in H.
  apply (nested_app_filter
           (fun p => enclosesPos p (selection_active editor))) in H.
  fold (recoveredPairs contentChanges editor this) in H.
  unfold createdPairs, createsInnermost in *.
  destruct (getNewPair contentChanges (settings this)) as [[created|]|];
    rewrite ?app_nil_r; try exact H.
  rewrite app_assoc. now apply nested_snoc_innermost.
Qed.

Lemma run_nested (events : list Event) (this : Pairs) :
  validEvents events = true ->
  newPairsInnermost events this = true ->
  nestedWithBuffer this ->
  nestedWithBuffer (run events this).
Proof.
  revert this. induction events as [|e rest IH]; intros this Hvalid Hnew H;
    [exact H|].
  simpl in Hnew. apply andb_true_iff in Hnew as [He Hnew].
  simpl. apply IH; [destruct e; simpl in Hvalid| exact Hnew |].
  - apply andb_true_iff in Hvalid. tauto.
  - exact Hvalid.
  - exact Hvalid.
  - destruct e as [contentChanges editor|editor|]; simpl.
    + simpl in Hvalid. apply andb_true_iff in Hvalid as [Hvalid _].
      now apply updateGivenContentChanges_nested.
    + now apply updateGivenCursorChanges_nested.
    + reflexivity.
Qed.

Lemma validEvents_firstn (k : nat) (events : list Event) :
  validEvents events = true -> validEvents (firstn k events) = true.
Proof.
  revert k. induction events as [|e rest IH]; intros k H; [now destruct k|].
  destruct k as [|k]; [reflexivity|].
  destruct e; simpl in *; auto.
  apply andb_true_iff in H as [H1 H2]. rewrite H1. simpl. auto.
Qed.

Lemma newPairsInnermost_firstn (k : nat) (events : list Event) (this : Pairs) :
  newPairsInnermost events this = true ->
  newPairsInnermost (firstn k events) this = true.
Proof.
  revert k this. induction events as [|e rest IH]; intros k this H; [now destruct k|].
  destruct k as [|k]; [reflexivity|].
  simpl in *. apply andb_true_iff in H as [H1 H2]. rewrite H1. simpl. auto.
Qed.

(** A run that keeps the list nested in every state created every pair
    innermost. *)
Lemma nested_run_creates_innermost (events : list Event) (this : Pairs) :
  nestedWithBuffer this ->
  validEvents events = true ->
  (forall k, properlyNested (data (run (firstn k events) this)) = true) ->
  newPairsInnermost events this = true.
Proof.
  revert this. induction events as [|e rest IH]; intros this Hinv Hvalid H;
    [reflexivity|].
  assert (Hrest : validEvents rest = true
                  /\ match e with
                     | contentChangeEvent contentChanges _ =>
                         validChanges contentChanges = true
                     | _ => True
                     end).
  { destruct e; simpl in Hvalid; [apply andb_true_iff in Hvalid; tauto|auto|auto]. }
  destruct Hrest as [Hrest He].
  assert (Hguard : match e with
                   | contentChangeEvent contentChanges editor =>
                       createsInnermost contentChanges editor this
                   | _ => true
                   end = true).
  { destruct e as [contentChanges editor| |]; [|reflexivity|reflexivity].
    specialize (H 1%nat). simpl in H.
    rewrite (properlyNested_sides _ _ (updateGivenContentChanges_data _ _ _)) in H.
    unfold createsInnermost. unfold createdPairs in H.
    destruct (getNewPair contentChanges (settings this)) as [[created|]|];
      [|reflexivity|reflexivity].
    rewrite app_assoc in H. apply properlyNested_StronglySorted in H.
    apply nested_snoc_innermost; [|exact H].
    unfold nestedWithBuffer in Hinv.
    apply properlyNested_StronglySorted in Hinv.
    apply (applyContentChanges_nested _ contentChanges He) in Hinv.
    rewrite applyContentChanges_app in Hinv.
    now apply (nested_app_filter
                 (fun p => enclosesPos p (selection_active editor))) in Hinv. }
  simpl. rewrite Hguard. simpl.
  apply IH; [|exact Hrest|intros k; exact (H (S k))].
  destruct e as [contentChanges editor|editor|]; simpl.
  - now apply updateGivenContentChanges_nested.
  - now apply updateGivenCursorChanges_nested.
  - reflexivity.
Qed.

(** C5 (amended). From an empty container, after any sequence of
    content-change updates, cursor-change updates and clears in which
    every new pair is created strictly inside the last pair of the list it
    is appended to (the updated pairs followed by the pairs put back from
    the rescue buffer), the list is strictly properly nested, alone and
    followed by the rescue buffer, including after rescued pairs are put
    back and after a new pair is appended. The condition asks no more
    than that: a run keeps the list nested in every state exactly when
    every pair it creates is created so. *)
Theorem nesting_invariant (s : Settings) (events : list Event) :
  validEvents events = true ->
  (newPairsInnermost events (Pairs_new s) = true ->
   properlyNested (data (run events (Pairs_new s))) = true /\
   properlyNested (data (run events (Pairs_new s))
                   ++ recentlyRemovedDueToCursorMove (run events (Pairs_new s))) = true) /\
  (newPairsInnermost events (Pairs_new s) = true <->
   forall k, properlyNested (data (run (firstn k events) (Pairs_new s))) = true).
Proof.
  intros Hvalid.
  assert (Hforward : forall evs,
             validEvents evs = true ->
             newPairsInnermost evs (Pairs_new s) = true ->
             properlyNested (data (run evs (Pairs_new s))) = true /\
             properlyNested (data (run evs (Pairs_new s))
                             ++ recentlyRemovedDueToCursorMove (run evs (Pairs_new s)))
             = true).
  { intros evs Hv Hnew.
    assert (H : nestedWithBuffer (run evs (Pairs_new s))).
    { apply run_nested; [exact Hv|exact Hnew|reflexivity]. }
    split; [|exact H].
    apply properlyNested_StronglySorted.
    apply properlyNested_StronglySorted in H. now apply nested_app_l in H. }
  split; [apply Hforward; exact Hvalid|]. split.
  - intros Hnew k.
    apply (Hforward (firstn k events)).
    + now apply validEvents_firstn.
    + now apply newPairsInnermost_firstn.
  - intros H. apply nested_run_creates_innermost; [reflexivity|exact Hvalid|exact H].
Qed.

Lemma nesting_invariant_witness :
  let s := mkSettings [lit "()"; lit "[]"] (mkRenderOptions []) true in
  let events :=
    [contentChangeEvent [insertion (mkPosition 0 0) "()"] (editorAt (mkPosition 0 0));
     cursorChangeEvent (editorAt (mkPosition 0 1));
     contentChangeEvent [insertion (mkPosition 0 1) "[]"] (editorAt (mkPosition 0 1));
     cursorChangeEvent (editorAt (mkPosition 0 2));
     contentChangeEvent [insertion (mkPosition 0 2) "xy"] (editorAt (mkPosition 0 2));
     cursorChangeEvent (editorAt (mkPosition 0 4));
     cursorChangeEvent (editorAt (mkPosition 0 6));
     contentChangeEvent [insertion (mkPosition 0 6) "()"] (editorAt (mkPosition 0 6))] in
  map sides (data (run (firstn 6 events) (Pairs_new s))) =
    [(mkPosition 0 0, mkPosition 0 5); (mkPosition 0 1, mkPosition 0 4)] /\
  map sides (data (run events (Pairs_new s))) =
    [(mkPosition 0 6, mkPosition 0 7)] /\
  properlyNested (data (run events (Pairs_new s))) = true.
Proof.
  intros s events. split; [reflexivity|]. split; [reflexivity|].
  exact (proj1 (proj1 (nesting_invariant s events eq_refl) eq_refl)).
Defined.

(** C5, as stated, fails: two trigger insertions in a row, the second
    outside the pair of the first, leave two pairs side by side. *)
Lemma nesting_broken_by_insertion_outside :
  let s := mkSettings [lit "()"] (mkRenderOptions []) true in
  let events :=
    [contentChangeEvent [insertion (mkPosition 0 0) "()"] (editorAt (mkPosition 0 1));
     contentChangeEvent [insertion (mkPosition 0 5) "()"] (editorAt (mkPosition 0 6))] in
  validEvents events = true /\
  map sides (data (run events (Pairs_new s))) =
    [(mkPosition 0 0, mkPosition 0 1); (mkPosition 0 5, mkPosition 0 6)] /\
  properlyNested (data (run events (Pairs_new s))) = false.
Proof. repeat split. Qed.

(** ** Text with a line break inserted between the sides of a pair *)

Lemma applyToPair_line_break (p : Pair) (c : TextDocumentContentChangeEvent) :
  isEmpty (range c) = true ->
  0 < SpecText.insertedLines (text c) ->
  line (open p) = line (close p) ->
  isBeforeOrEqual (open p) (close p) = true ->
  applyToPair p [c] =
  if landsBetweenSides (start (range c)) p then inr p
  else inl (setSides p (SpecPair.moved c (open p)) (SpecPair.moved c (close p))).
Proof.
  intros Hempty Hk Hline Hle.
  apply isEqual_eq in Hempty.
  assert (Hvalid : validRange (range c)).
  { unfold validRange. rewrite <- Hempty. apply isBeforeOrEqual_le. lia. }
  assert (Hover : forall pos, overwrites c pos = false).
  { intros pos. apply overwrites_false. rewrite <- Hempty.
    destruct (isBefore pos (start (range c))); auto. }
  unfold landsBetweenSides, SpecPair.moved. simpl.
  rewrite !(getNewPos_cases _ _ Hvalid), !Hover.
  destruct (isBefore (open p) (start (range c))) eqn:Hopen;
    destruct (isBefore (close p) (start (range c))) eqn:Hclose; simpl.
  - replace (isBeforeOrEqual (start (range c)) (close p)) with false
      by (symmetry; order_props;
          destruct (isBeforeOrEqual (start (range c)) (close p)) eqn:E;
          [order_props; lia|reflexivity]).
    rewrite Hline, Z.eqb_refl. reflexivity.
  - replace (isBeforeOrEqual (start (range c)) (close p)) with true
      by (symmetry; order_props; lia).
    unfold shifted. cbn [line]. rewrite <- Hempty.
    replace (line (open p) =? _) with false; [reflexivity|].
    symmetry. apply Z.eqb_neq. order_props. lia.
  - order_props. lia.
  - unfold shifted. cbn [line]. rewrite Hline, Z.eqb_refl. reflexivity.
Qed.

Lemma applyContentChanges_line_break (pairs : list Pair)
  (c : TextDocumentContentChangeEvent) :
  isEmpty (range c) = true ->
  0 < SpecText.insertedLines (text c) ->
  Forall (fun p => line (open p) = line (close p)
                   /\ isBeforeOrEqual (open p) (close p) = true) pairs ->
  applyContentChanges pairs [c] =
  (map (fun p => setSides p (SpecPair.moved c (open p)) (SpecPair.moved c (close p)))
       (filter (fun p => negb (landsBetweenSides (start (range c)) p)) pairs),
   filter (landsBetweenSides (start (range c))) pairs).
Proof.
  intros Hempty Hk Hall.
  induction Hall as [|p rest [Hline Hle] Hrest IH]; [reflexivity|].
  cbn [applyContentChanges]. rewrite IH.
  rewrite (applyToPair_line_break p c Hempty Hk Hline Hle).
  simpl. destruct (landsBetweenSides (start (range c)) p); reflexivity.
Qed.

(** C2 (amended). A content-change update drops a pair exactly when, at
    some change of the batch, a side is deleted or the two moved sides are
    on different lines; every other pair is kept, in order, with its sides
    moved, ahead of the recovered and the created pairs. Inserting a text
    with a line break removes exactly the pairs that have the insertion
    between their sides: the pair it lands in together with every pair
    around that pair, and no pair that lies wholly before or after it. *)
Theorem line_break_removes_every_pair_around_it :
  (forall contentChanges editor this,
      map sides (data (this_ (updateGivenContentChanges contentChanges editor this))) =
      SpecPair.survivors (data this) contentChanges
      ++ map sides (recoveredPairs contentChanges editor this
                    ++ createdPairs contentChanges (settings this))) /\
  (forall c editor this,
      isEmpty (range c) = true ->
      0 < SpecText.insertedLines (text c) ->
      Forall (fun p => line (open p) = line (close p)
                       /\ isBeforeOrEqual (open p) (close p) = true) (data this) ->
      snd (applyContentChanges (data this) [c]) =
        filter (landsBetweenSides (start (range c))) (data this) /\
      map sides (data (this_ (updateGivenContentChanges [c] editor this))) =
        map (fun p => (SpecPair.moved c (open p), SpecPair.moved c (close p)))
            (filter (fun p => negb (landsBetweenSides (start (range c)) p)) (data this))
        ++ map sides (recoveredPairs [c] editor this
                      ++ createdPairs [c] (settings this))).
Proof.
  split.
  - intros contentChanges editor this.
    now rewrite updateGivenContentChanges_data, map_app,
      applyContentChanges_survivors.
  - intros c editor this Hempty Hk Hall.
    rewrite updateGivenContentChanges_data, map_app.
    rewrite (applyContentChanges_line_break _ c Hempty Hk Hall).
    simpl. split; [reflexivity|]. now rewrite map_map.
Qed.

Lemma line_break_removes_every_pair_around_it_witness :
  let pairAt o c := Pair_new (mkPosition 0 o) (mkPosition 0 c) (mkRenderOptions []) in
  let this := mkPairs [pairAt 0 20; pairAt 2 9; pairAt 3 4; pairAt 6 8] []
                      (mkSettings [lit "()"] (mkRenderOptions []) false) in
  let c := mkContentChange (mkRange (mkPosition 0 5) (mkPosition 0 5)) [LF; 32%N] in
  snd (applyContentChanges (data this) [c]) = [pairAt 0 20; pairAt 2 9] /\
  map sides (data (this_ (updateGivenContentChanges [c] (editorAt (mkPosition 1 1)) this))) =
    [(mkPosition 0 3, mkPosition 0 4); (mkPosition 1 2, mkPosition 1 4)].
Proof.
  intros pairAt this c.
  assert (Hall : Forall (fun p => line (open p) = line (close p)
                                  /\ isBeforeOrEqual (open p) (close p) = true)
                        (data this))
    by (repeat constructor).
  exact (proj2 line_break_removes_every_pair_around_it c
           (editorAt (mkPosition 1 1)) this eq_refl eq_refl Hall).
Defined.

(** C2, as stated, fails: a line break inserted between the sides of the
    inner of two nested pairs removes the outer pair as well. *)
Lemma line_break_removes_outer_pair_too :
  let outer := Pair_new (mkPosition 0 0) (mkPosition 0 8) (mkRenderOptions []) in
  let inner := Pair_new (mkPosition 0 2) (mkPosition 0 5) (mkRenderOptions []) in
  let this := mkPairs [outer; inner] [] (mkSettings [lit "()"] (mkRenderOptions []) false) in
  let c := mkContentChange (mkRange (mkPosition 0 4) (mkPosition 0 4)) [LF] in
  properlyNested (data this) = true /\
  landsBetweenSides (start (range c)) inner = true /\
  SpecText.insertedLines (text c) = 1 /\
  data (this_ (updateGivenContentChanges [c] (editorAt (mkPosition 1 0)) this)) = [].
Proof. repeat split. Qed.

(* ================================================================== *)
(** * Further properties of the position arithmetic *)

Lemma insertedLines_app (s t : JsString) :
  SpecText.insertedLines (s ++ t) = SpecText.insertedLines s + SpecText.insertedLines t.
Proof.
  induction s as [|c s IH]; simpl; [reflexivity|]. rewrite IH. lia.
Qed.

Lemma afterLastLineBreak_app (s t : JsString) :
  SpecText.afterLastLineBreak (s ++ t) =
  if 0 <? SpecText.insertedLines t then SpecText.afterLastLineBreak t
  else SpecText.afterLastLineBreak s ++ t.
Proof.
  pose proof (insertedLines_nonneg t) as Ht.
  induction s as [|c s IH].
  - simpl. destruct (Z.ltb_spec 0 (SpecText.insertedLines t)); [reflexivity|].
    apply afterLastLineBreak_no_break. lia.
  - pose proof (insertedLines_nonneg s) as Hs.
    change ((c :: s) ++ t) with (c :: (s ++ t)).
    unfold SpecText.afterLastLineBreak; fold SpecText.afterLastLineBreak.
    rewrite IH. simpl SpecText.insertedLines. rewrite insertedLines_app.
    destruct (N.eqb c LF);
      destruct (Z.ltb_spec 0 (SpecText.insertedLines t));
      repeat match goal with
             | |- context [Z.ltb ?a ?b] => destruct (Z.ltb_spec a b)
             end; try reflexivity; lia.
Qed.

(** X1. [getEndPos] composes over concatenation: the end of [s ++ t]
    appended at a position is the end of [t] appended at the end of [s],
    and the empty string ends where it starts. *)
Theorem getEndPos_concatenation (startPos : Position) (s t : JsString) :
  getEndPos startPos (ofString (s ++ t)) =
    getEndPos (getEndPos startPos (ofString s)) (ofString t) /\
  getEndPos startPos (ofString []) = startPos.
Proof.
  split.
  - rewrite !getEndPos_string. unfold SpecText.insertedLastLineLen.
    rewrite insertedLines_app, afterLastLineBreak_app.
    pose proof (insertedLines_nonneg s). pose proof (insertedLines_nonneg t).
    cbn [line character].
    destruct (Z.ltb_spec 0 (SpecText.insertedLines t)).
    + f_equal; [lia|].
      repeat match goal with
             | |- context [Z.gtb ?a ?b] => destruct (Z.gtb_spec a b)
             end; lia.
    + rewrite (afterLastLineBreak_no_break t) by lia.
      unfold JsString.length. rewrite length_app.
      f_equal; [lia|].
      repeat match goal with
             | |- context [Z.gtb ?a ?b] => destruct (Z.gtb_spec a b)
             end; lia.
  - destruct startPos as [l c]. unfold getEndPos. simpl. f_equal; lia.
Qed.

(** X2. The position at the end of the replaced range moves to the end
    of the inserted text. *)
Theorem getNewPos_of_range_end (c : TextDocumentContentChangeEvent) :
  validRange (range c) ->
  getNewPos (end_ (range c)) c =
  Some (getEndPos (start (range c)) (ofString (text c))).
Proof.
  intros Hrange. rewrite (getNewPos_cases _ c Hrange).
  assert (H1 : overwrites c (end_ (range c)) = false).
  { apply overwrites_false. right. apply isBefore_false. lia. }
  assert (H2 : isBefore (end_ (range c)) (start (range c)) = false).
  { order_props. lia. }
  rewrite H1, H2, getEndPos_string. unfold shifted. f_equal. f_equal; [lia|].
  rewrite Z.gtb_ltb, Z.ltb_irrefl.
  destruct (SpecText.insertedLines (text c) >? 0); lia.
Qed.

Lemma getNewPos_of_range_end_witness :
  getNewPos (mkPosition 2 9)
            (mkContentChange (mkRange (mkPosition 2 3) (mkPosition 2 9)) (lit "ab"))
  = Some (mkPosition 2 5).
Proof.
  exact (getNewPos_of_range_end
           (mkContentChange (mkRange (mkPosition 2 3) (mkPosition 2 9)) (lit "ab"))
           eq_refl).
Defined.

(** X3. A change that replaces nothing by nothing moves no position. *)
Theorem getNewPos_of_empty_change (p : Position) (c : TextDocumentContentChangeEvent) :
  isEmpty (range c) = true -> text c = [] ->
  getNewPos p c = Some p.
Proof.
  intros Hempty Htext. apply isEqual_eq in Hempty.
  assert (Hrange : validRange (range c)).
  { unfold validRange. rewrite <- Hempty. apply isBeforeOrEqual_le. lia. }
  rewrite (getNewPos_cases _ c Hrange).
  assert (H1 : overwrites c p = false).
  { apply overwrites_false. rewrite <- Hempty.
    destruct (isBefore p (start (range c))); auto. }
  rewrite H1.
  destruct (isBefore p (start (range c))) eqn:Hbefore; [reflexivity|].
  unfold shifted. rewrite Htext, <- Hempty.
  change (SpecText.insertedLines []) with 0.
  change (SpecText.insertedLastLineLen []) with 0.
  destruct p as [pl pc]. cbn [line character].
  apply isBefore_false in Hbefore. cbn [line character] in Hbefore.
  f_equal. f_equal; [lia|].
  destruct (Z.gtb_spec pl (line (start (range c)))); simpl; lia.
Qed.

Lemma getNewPos_of_empty_change_witness :
  getNewPos (mkPosition 4 2)
            (mkContentChange (mkRange (mkPosition 1 1) (mkPosition 1 1)) [])
  = Some (mkPosition 4 2).
Proof.
  exact (getNewPos_of_empty_change (mkPosition 4 2)
           (mkContentChange (mkRange (mkPosition 1 1) (mkPosition 1 1)) [])
           eq_refl eq_refl).
Defined.

(** X4. Two positions that both survive a change keep their strict
    order. *)
Theorem getNewPos_preserves_order (p q p' q' : Position)
  (c : TextDocumentContentChangeEvent) :
  validRange (range c) ->
  isBefore p q = true ->
  getNewPos p c = Some p' -> getNewPos q c = Some q' ->
  isBefore p' q' = true.
Proof. apply getNewPos_strictly_monotone. Qed.

Lemma getNewPos_preserves_order_witness :
  isBefore (mkPosition 0 1) (mkPosition 3 6) = true.
Proof.
  exact (getNewPos_preserves_order (mkPosition 0 1) (mkPosition 1 7)
           (mkPosition 0 1) (mkPosition 3 6)
           (mkContentChange (mkRange (mkPosition 0 4) (mkPosition 1 2))
                            [LF; LF; LF; 120%N])
           eq_refl eq_refl eq_refl eq_refl).
Defined.

(** X5. From non-negative coordinates [getNewPos] builds non-negative
    coordinates: the constructor of [Position] never rejects them. *)
Theorem getNewPos_builds_valid_positions (p p' : Position)
  (c : TextDocumentContentChangeEvent) :
  validRange (range c) ->
  validPosition p -> validPosition (start (range c)) ->
  getNewPos p c = Some p' ->
  validPosition p'.
Proof. apply getNewPos_validPosition. Qed.

Lemma getNewPos_builds_valid_positions_witness :
  validPosition (mkPosition 0 3).
Proof.
  apply (getNewPos_builds_valid_positions (mkPosition 0 9) (mkPosition 0 3)
           (mkContentChange (mkRange (mkPosition 0 0) (mkPosition 0 7)) (lit "x")));
    [reflexivity|split; simpl; lia|split; simpl; lia|reflexivity].
Defined.

Lemma getEndPos_string_after_start (pos : Position) (t : JsString) :
  isBeforeOrEqual pos (getEndPos pos (ofString t)) = true.
Proof.
  rewrite getEndPos_string.
  pose proof (insertedLines_nonneg t). pose proof (insertedLastLineLen_nonneg t).
  apply isBeforeOrEqual_le. cbn [line character].
  destruct (Z.gtb_spec (SpecText.insertedLines t) 0); lia.
Qed.

(** X6. Inserting a text and then taking it back returns every position
    to where it was. *)
Theorem getNewPos_insertion_then_undo (pos p : Position) (t : JsString) :
  exists p',
    getNewPos p (mkContentChange (mkRange pos pos) t) = Some p' /\
    getNewPos p' (undoInsertion pos t) = Some p.
Proof.
  set (ins := mkContentChange (mkRange pos pos) t).
  assert (Hins : validRange (range ins)).
  { apply isBeforeOrEqual_le. simpl. lia. }
  assert (Hdel : validRange (range (undoInsertion pos t))).
  { apply getEndPos_string_after_start. }
  rewrite (getNewPos_cases _ ins Hins).
  assert (H1 : overwrites ins p = false).
  { apply overwrites_false. simpl. destruct (isBefore p pos); auto. }
  rewrite H1. simpl range. cbn [start].
  destruct (isBefore p pos) eqn:Hbefore.
  - exists p. split; [reflexivity|].
    rewrite (getNewPos_cases _ _ Hdel).
    assert (H2 : overwrites (undoInsertion pos t) p = false).
    { apply overwrites_false. left. exact Hbefore. }
    rewrite H2. simpl. now rewrite Hbefore.
  - exists (shifted p ins). split; [reflexivity|].
    rewrite (getNewPos_cases _ _ Hdel).
    unfold undoInsertion, overwrites, shifted, isAfterOrEqual. cbn [range text start end_].
    rewrite getEndPos_string.
    change (SpecText.insertedLines []) with 0.
    change (SpecText.insertedLastLineLen []) with 0.
    unfold ins. cbn [range text start end_].
    pose proof (insertedLines_nonneg t) as Hk.
    pose proof (insertedLastLineLen_nonneg t) as Hl.
    generalize dependent (SpecText.insertedLines t).
    generalize dependent (SpecText.insertedLastLineLen t).
    intros len Hl k Hk.
    apply isBefore_false in Hbefore.
    destruct p as [pl pc], pos as [l c]. cbn [line character] in *.
    assert (Hk' : (k >? 0) = true \/ (k >? 0) = false /\ k = 0).
    { destruct (Z.gtb_spec k 0); [auto|right; split; [reflexivity|lia]]. }
    assert (Hp : (pl >? l) = true /\ l < pl \/ (pl >? l) = false /\ pl = l /\ c <= pc).
    { destruct (Z.gtb_spec pl l); [auto|right; repeat split; lia]. }
    destruct Hk' as [Hk1|[Hk1 Hk0]]; destruct Hp as [[Hp1 Hp2]|[Hp1 [Hp2 Hp3]]];
      rewrite ?Hk1, ?Hp1; subst;
      unfold isBefore; cbn [line character];
      repeat match goal with
             | |- context [Z.ltb ?a ?b] => destruct (Z.ltb_spec a b); try lia
             | |- context [Z.eqb ?a ?b] => destruct (Z.eqb_spec a b); try lia
             | |- context [Z.gtb ?a ?b] => destruct (Z.gtb_spec a b); try lia
             end; cbn [negb andb orb]; try (f_equal; f_equal; lia).
Qed.

(* ================================================================== *)
(** * Further properties of the update of a list of pairs *)

Lemma applyContentChanges_no_change (pairs : list Pair) :
  applyContentChanges pairs [] = (pairs, []).
Proof.
  induction pairs as [|p rest IH]; [reflexivity|]. simpl. now rewrite IH.
Qed.

(** X7. [applyContentChanges] loses no pair: every pair of the list ends
    in exactly one of the two lists it returns, and an empty batch
    returns the list as it is with nothing removed. *)
Theorem applyContentChanges_keeps_count (pairs : list Pair)
  (contentChanges : list TextDocumentContentChangeEvent) :
  (List.length (fst (applyContentChanges pairs contentChanges))
   + List.length (snd (applyContentChanges pairs contentChanges))
   = List.length pairs)%nat /\
  applyContentChanges pairs [] = (pairs, []).
Proof.
  split; [|apply applyContentChanges_no_change].
  induction pairs as [|p rest IH]; [reflexivity|].
  simpl. destruct (applyContentChanges rest contentChanges) as [u r].
  destruct (applyToPair p contentChanges); simpl in *; lia.
Qed.

Lemma setSides_same (p : Pair) : setSides p (open p) (close p) = p.
Proof. destruct p; reflexivity. Qed.

(** X8. An edit without line feed between the sides of a pair keeps the
    pair: its opening side stays and its closing side moves by the length
    of the inserted text less the length of the replaced text. *)
Theorem edit_between_sides_moves_close (p : Pair) (c : TextDocumentContentChangeEvent) :
  sidesOnOneLine p = true ->
  validRange (range c) ->
  isBefore (open p) (start (range c)) = true ->
  isBeforeOrEqual (end_ (range c)) (close p) = true ->
  SpecText.insertedLines (text c) = 0 ->
  applyToPair p [c] =
  inl (setSides p (open p)
         (mkPosition (line (close p))
                     (character (close p) + JsString.length (text c)
                      - (character (end_ (range c)) - character (start (range c)))))).
Proof.
  intros Hline Hrange Hopen Hclose Hk.
  unfold sidesOnOneLine in Hline. apply Z.eqb_eq in Hline.
  simpl. rewrite !(getNewPos_cases _ _ Hrange).
  assert (H1 : overwrites c (open p) = false) by (apply overwrites_false; now left).
  assert (H2 : overwrites c (close p) = false).
  { apply overwrites_false. right. order_props. lia. }
  assert (H3 : isBefore (close p) (start (range c)) = false).
  { order_props. lia. }
  rewrite H1, H2, H3, Hopen.
  assert (Hshift : shifted (close p) c =
                   mkPosition (line (close p))
                     (character (close p) + JsString.length (text c)
                      - (character (end_ (range c)) - character (start (range c))))).
  { unfold shifted, SpecText.insertedLastLineLen.
    rewrite (afterLastLineBreak_no_break _ Hk), Hk.
    order_props. f_equal; [lia|].
    destruct (Z.gtb_spec (line (close p)) (line (end_ (range c)))); simpl; lia. }
  rewrite Hshift. cbn [line]. rewrite Hline, Z.eqb_refl. reflexivity.
Qed.

Lemma edit_between_sides_moves_close_witness :
  applyToPair (Pair_new (mkPosition 0 2) (mkPosition 0 9) (mkRenderOptions []))
              [mkContentChange (mkRange (mkPosition 0 4) (mkPosition 0 6)) (lit "hello")]
  = inl (Pair_new (mkPosition 0 2) (mkPosition 0 12) (mkRenderOptions [])).
Proof.
  exact (edit_between_sides_moves_close
           (Pair_new (mkPosition 0 2) (mkPosition 0 9) (mkRenderOptions []))
           (mkContentChange (mkRange (mkPosition 0 4) (mkPosition 0 6)) (lit "hello"))
           eq_refl eq_refl eq_refl eq_refl eq_refl).
Defined.

(** X9. Changes that start after both sides of a pair on one line leave
    the pair as it is. *)
Theorem changes_after_pair_leave_it (p : Pair)
  (contentChanges : list TextDocumentContentChangeEvent) :
  sidesOnOneLine p = true ->
  Forall (fun c => isBefore (open p) (start (range c)) = true
                   /\ isBefore (close p) (start (range c)) = true) contentChanges ->
  applyToPair p contentChanges = inl p.
Proof.
  intros Hline Hall. unfold sidesOnOneLine in Hline.
  induction Hall as [|c rest [Hopen Hclose] Hrest IH]; [reflexivity|].
  simpl. unfold getNewPos, isAfterOrEqual.
  rewrite Hopen, Hclose. simpl. rewrite Hline. simpl.
  rewrite setSides_same. exact IH.
Qed.

Lemma changes_after_pair_leave_it_witness :
  applyToPair (Pair_new (mkPosition 1 2) (mkPosition 1 3) (mkRenderOptions []))
              [insertion (mkPosition 1 4) "ab"; insertion (mkPosition 2 0) "("]
  = inl (Pair_new (mkPosition 1 2) (mkPosition 1 3) (mkRenderOptions [])).
Proof.
  apply changes_after_pair_leave_it; [reflexivity|].
  repeat constructor.
Defined.

Lemma applyToPair_dropped_at_first (p q : Pair) (c : TextDocumentContentChangeEvent)
  (rest : list TextDocumentContentChangeEvent) :
  applyToPair p [c] = inr q -> applyToPair p (c :: rest) = inr q.
Proof.
  simpl.
  destruct (getNewPos (open p) c); [|auto].
  destruct (getNewPos (close p) c); [|auto].
  destruct (negb (line p0 =? line p1)); [auto|discriminate].
Qed.

Lemma applyToPair_app (p : Pair)
  (before rest : list TextDocumentContentChangeEvent) :
  applyToPair p (before ++ rest) =
  match applyToPair p before with
  | inl p' => applyToPair p' rest
  | inr dropped => inr dropped
  end.
Proof.
  revert p. induction before as [|c before IH]; intros p; [reflexivity|].
  simpl.
  destruct (getNewPos (open p) c) as [o|]; [|reflexivity].
  destruct (getNewPos (close p) c) as [cl|]; [|reflexivity].
  destruct (negb (line o =? line cl)); [reflexivity|apply IH].
Qed.

Lemma applyToPair_dropped_by (p : Pair) (c : TextDocumentContentChangeEvent)
  (rest : list TextDocumentContentChangeEvent) :
  SpecPair.updateSides (sides p) c = None -> applyToPair p (c :: rest) = inr p.
Proof.
  unfold SpecPair.updateSides. simpl.
  destruct (getNewPos (open p) c) as [o|]; [|reflexivity].
  destruct (getNewPos (close p) c) as [cl|]; [|reflexivity].
  destruct (line o =? line cl); [discriminate|reflexivity].
Qed.

(** X10. A pair dropped by a change of the batch is not taken back by
    the changes after it. Wherever the change stands in the batch, if it
    deletes a side of the pair as the changes before it left it, or leaves
    its two sides on different lines (as a line break inserted between the
    sides of a pair on one line does), the pair is removed with the sides
    it had before that change, whatever follows; and a pair once removed
    stays removed however the batch goes on. *)
Theorem dropped_pair_is_not_taken_back :
  (forall p p' before c rest,
      applyToPair p before = inl p' ->
      SpecPair.updateSides (sides p') c = None ->
      applyToPair p (before ++ c :: rest) = inr p') /\
  (forall p p' before c rest,
      applyToPair p before = inl p' ->
      overwrites c (open p') = true \/ overwrites c (close p') = true ->
      applyToPair p (before ++ c :: rest) = inr p') /\
  (forall p p' before c rest,
      applyToPair p before = inl p' ->
      sidesOnOneLine p' = true ->
      isBeforeOrEqual (open p') (close p') = true ->
      isEmpty (range c) = true ->
      0 < SpecText.insertedLines (text c) ->
      landsBetweenSides (start (range c)) p' = true ->
      applyToPair p (before ++ c :: rest) = inr p') /\
  (forall p dropped before rest,
      applyToPair p before = inr dropped ->
      applyToPair p (before ++ rest) = inr dropped).
Proof.
  split; [|split; [|split]].
  - intros p p' before c rest Hbefore Hdrop.
    rewrite applyToPair_app, Hbefore. now apply applyToPair_dropped_by.
  - intros p p' before c rest Hbefore H.
    rewrite applyToPair_app, Hbefore.
    simpl. unfold getNewPos. fold (overwrites c (open p')).
    fold (overwrites c (close p')).
    destruct H as [H|H]; rewrite H; [reflexivity|].
    destruct (overwrites c (open p')); [reflexivity|].
    destruct (isBefore (open p') (start (range c))); reflexivity.
  - intros p p' before c rest Hbefore Hline Hle Hempty Hk Hlands.
    rewrite applyToPair_app, Hbefore.
    apply applyToPair_dropped_at_first.
    unfold sidesOnOneLine in Hline. apply Z.eqb_eq in Hline.
    rewrite (applyToPair_line_break p' c Hempty Hk Hline Hle), Hlands.
    reflexivity.
  - intros p dropped before rest H. now rewrite applyToPair_app, H.
Qed.

Lemma dropped_pair_is_not_taken_back_witness :
  let p := Pair_new (mkPosition 0 2) (mkPosition 0 5) (mkRenderOptions []) in
  let moved := Pair_new (mkPosition 0 4) (mkPosition 0 7) (mkRenderOptions []) in
  applyToPair p ([insertion (mkPosition 0 0) "ab"]
                 ++ mkContentChange (mkRange (mkPosition 0 4) (mkPosition 0 5)) []
                 :: [insertion (mkPosition 0 4) "("]) = inr moved /\
  applyToPair p ([insertion (mkPosition 0 0) "ab"]
                 ++ mkContentChange (mkRange (mkPosition 0 6) (mkPosition 0 6)) [LF]
                 :: [undoInsertion (mkPosition 0 6) [LF]]) = inr moved /\
  applyToPair p ([mkContentChange (mkRange (mkPosition 0 2) (mkPosition 0 3)) []]
                 ++ [insertion (mkPosition 0 2) "("]) = inr p.
Proof.
  intros p moved. split; [|split].
  - apply (proj1 (proj2 dropped_pair_is_not_taken_back)); [reflexivity|].
    left. reflexivity.
  - apply (proj1 (proj2 (proj2 dropped_pair_is_not_taken_back))); reflexivity.
  - apply (proj2 (proj2 (proj2 dropped_pair_is_not_taken_back))). reflexivity.
Defined.

(** X11. [removeEscapedPairs] splits the list by the cursor: the retained
    pairs are the pairs that enclose it, the removed pairs are the pairs
    that do not, and no pair is lost. *)
Theorem removeEscapedPairs_splits_by_cursor (pairs : list Pair) (editor : TextEditor) :
  let retained := fst (removeEscapedPairs pairs editor) in
  let removed := snd (removeEscapedPairs pairs editor) in
  (forall p, In p retained <->
             In p pairs /\ enclosesPos p (selection_active editor) = true) /\
  (forall p, In p removed <->
             In p pairs /\ enclosesPos p (selection_active editor) = false) /\
  (List.length retained + List.length removed = List.length pairs)%nat.
Proof.
  rewrite removeEscapedPairs_filter. simpl. split; [|split].
  - intros p. rewrite filter_In. tauto.
  - intros p. rewrite filter_In, negb_true_iff. tauto.
  - induction pairs as [|p rest IH]; [reflexivity|].
    simpl. destruct (enclosesPos p (selection_active editor)); simpl; lia.
Qed.

(* ================================================================== *)
(** * Further properties of decoration *)

Lemma decorateLast_snoc (outer : list Pair) (nearest : Pair) :
  decorateLast (outer ++ [nearest]) = (outer ++ [decorate nearest], [decorateCall nearest]).
Proof.
  induction outer as [|p rest IH]; [reflexivity|].
  change ((p :: rest) ++ [nearest]) with (p :: (rest ++ [nearest])).
  destruct (rest ++ [nearest]) as [|q l] eqn:E; [destruct rest; discriminate|].
  change (decorateLast (p :: q :: l))
    with (let '(rest', calls) := decorateLast (q :: l) in (p :: rest', calls)).
  rewrite IH. reflexivity.
Qed.

Lemma onlyLastDecorated_snoc (outer : list Pair) (nearest : Pair) :
  onlyLastDecorated (outer ++ [nearest]) =
  forallb (fun p => negb (isDecorated p)) outer && isDecorated nearest.
Proof.
  induction outer as [|p rest IH]; [simpl; reflexivity|].
  change ((p :: rest) ++ [nearest]) with (p :: (rest ++ [nearest])).
  destruct (rest ++ [nearest]) as [|q l] eqn:E; [destruct rest; discriminate|].
  change (onlyLastDecorated (p :: q :: l))
    with (negb (isDecorated p) && onlyLastDecorated (q :: l)).
  rewrite IH. simpl. now rewrite andb_assoc.
Qed.

Lemma forallb_undecorated (pairs : list Pair) :
  forallb (fun p => negb (isDecorated p)) (map undecorate pairs) = true.
Proof. induction pairs; simpl; auto. Qed.

Lemma forallb_decorated (pairs : list Pair) :
  forallb isDecorated (map decorate pairs) = true.
Proof. induction pairs; simpl; auto. Qed.

Lemma reapplyDecorations_nearest (outer : list Pair) (nearest : Pair) :
  reapplyDecorations (outer ++ [nearest]) true =
  (map undecorate outer ++ [decorate nearest],
   map undecorateCall (outer ++ [nearest]) ++ [decorateCall (undecorate nearest)]).
Proof.
  unfold reapplyDecorations, removeDecorations.
  replace (Z.of_nat (List.length (outer ++ [nearest])) <? 1) with false
    by (rewrite length_app; simpl; symmetry; apply Z.ltb_ge; lia).
  rewrite map_app. simpl map. rewrite decorateLast_snoc. reflexivity.
Qed.

Lemma reapplyDecorations_all (p : Pair) (rest : list Pair) :
  reapplyDecorations (p :: rest) false =
  (map decorate (p :: rest),
   map undecorateCall (p :: rest) ++ map decorateCall (map undecorate (p :: rest))).
Proof.
  unfold reapplyDecorations, removeDecorations.
  replace (Z.of_nat (List.length (p :: rest)) <? 1) with false
    by (simpl List.length; symmetry; apply Z.ltb_ge; lia).
  rewrite map_map. reflexivity.
Qed.

Lemma reapplyDecorations_all_fst (pairs : list Pair) :
  fst (reapplyDecorations pairs false) = map decorate pairs.
Proof.
  destruct pairs as [|p rest]; [reflexivity|].
  now rewrite reapplyDecorations_all.
Qed.

Lemma reapplyDecorations_decorated (pairs : list Pair) (onlyNearest : bool) :
  decoratedPerSetting onlyNearest (fst (reapplyDecorations pairs onlyNearest)) = true.
Proof.
  destruct pairs as [|p rest] using rev_ind.
  - destruct onlyNearest; reflexivity.
  - destruct onlyNearest.
    + rewrite reapplyDecorations_nearest. simpl.
      rewrite onlyLastDecorated_snoc, forallb_undecorated. reflexivity.
    + destruct (rest ++ [p]) as [|q l] eqn:E; [destruct rest; discriminate|].
      rewrite reapplyDecorations_all. simpl fst. apply forallb_decorated.
Qed.

(** X12. [reapplyDecorations] first undecorates every pair and then
    decorates the last pair alone or every pair, as the setting says; the
    list it leaves is decorated as the setting says, has the same sides,
    and is left unchanged by a second call; an empty list gets no call. *)
Theorem reapplyDecorations_follows_setting :
  (forall outer nearest,
      reapplyDecorations (outer ++ [nearest]) true =
      (map undecorate outer ++ [decorate nearest],
       map undecorateCall (outer ++ [nearest])
       ++ [decorateCall (undecorate nearest)])) /\
  (forall p rest,
      reapplyDecorations (p :: rest) false =
      (map decorate (p :: rest),
       map undecorateCall (p :: rest)
       ++ map decorateCall (map undecorate (p :: rest)))) /\
  (forall onlyNearest, reapplyDecorations [] onlyNearest = ([], [])) /\
  (forall pairs onlyNearest,
      decoratedPerSetting onlyNearest (fst (reapplyDecorations pairs onlyNearest)) = true
      /\ map sides (fst (reapplyDecorations pairs onlyNearest)) = map sides pairs
      /\ fst (reapplyDecorations (fst (reapplyDecorations pairs onlyNearest)) onlyNearest)
         = fst (reapplyDecorations pairs onlyNearest)).
Proof.
  split; [exact reapplyDecorations_nearest|].
  split; [exact reapplyDecorations_all|].
  split; [reflexivity|].
  intros pairs onlyNearest.
  split; [apply reapplyDecorations_decorated|].
  split; [apply map_sides_reapplyDecorations|].
  destruct pairs as [|p rest] using rev_ind; [reflexivity|].
  destruct onlyNearest.
  - rewrite reapplyDecorations_nearest. simpl fst.
    rewrite reapplyDecorations_nearest. simpl fst.
    rewrite map_map. reflexivity.
  - rewrite !reapplyDecorations_all_fst, map_map. reflexivity.
Qed.

(* ================================================================== *)
(** * Further properties of the container *)

(** X13. On an empty batch [updateGivenContentChanges] throws: by then
    the list holds the pairs it had followed by the pairs of the rescue
    buffer that enclose the cursor, the rescue buffer is empty, and no
    renderer call was made. On every other batch it completes. *)
Theorem updateGivenContentChanges_empty_batch_throws :
  (forall editor this,
      updateGivenContentChanges [] editor this =
      mkOutcome throwsTypeError
        (mkPairs (data this
                  ++ filter (fun p => enclosesPos p (selection_active editor))
                            (recentlyRemovedDueToCursorMove this))
                 [] (settings this))
        []) /\
  (forall c rest editor this,
      completion (updateGivenContentChanges (c :: rest) editor this) = normal tt).
Proof.
  split.
  - intros editor this. unfold updateGivenContentChanges.
    rewrite !applyContentChanges_no_change. reflexivity.
  - intros c rest editor this. unfold updateGivenContentChanges.
    destruct (applyContentChanges (recentlyRemovedDueToCursorMove this) (c :: rest)).
    destruct (applyContentChanges (data this) (c :: rest)).
    unfold getNewPair.
    destruct (_ && _ && _); unfold removeDecorations;
      destruct (reapplyDecorations _ _); reflexivity.
Qed.

(** The two updates, with the loops replaced by what they compute. *)
Lemma updateGivenContentChanges_unfolded (c : TextDocumentContentChangeEvent)
  (rest : list TextDocumentContentChangeEvent) (editor : TextEditor) (this : Pairs) :
  updateGivenContentChanges (c :: rest) editor this =
  let kept := fst (applyContentChanges (data this) (c :: rest))
              ++ recoveredPairs (c :: rest) editor this
              ++ createdPairs (c :: rest) (settings this) in
  let redone := reapplyDecorations kept (decorateOnlyNearestPair (settings this)) in
  mkOutcome (normal tt) (mkPairs (fst redone) [] (settings this))
            (map undecorateCall (snd (applyContentChanges (data this) (c :: rest)))
             ++ snd redone).
Proof.
  unfold updateGivenContentChanges, recoveredPairs, createdPairs.
  assert (Hnew : getNewPair (c :: rest) (settings this) <> throwsTypeError).
  { unfold getNewPair. destruct (_ && _ && _); discriminate. }
  set (created := getNewPair (c :: rest) (settings this)) in *. clearbody created.
  destruct (applyContentChanges (recentlyRemovedDueToCursorMove this) (c :: rest))
    as [pending dropped].
  destruct (applyContentChanges (data this) (c :: rest)) as [updated removed].
  cbn [fst snd].
  destruct created as [[created|]|]; [| |now elim Hnew].
  - unfold removeDecorations. rewrite <- app_assoc.
    destruct (reapplyDecorations _ _). reflexivity.
  - unfold removeDecorations. rewrite app_nil_r.
    destruct (reapplyDecorations _ _). reflexivity.
Qed.

Lemma updateGivenCursorChanges_unfolded (editor : TextEditor) (this : Pairs) :
  updateGivenCursorChanges editor this =
  let retained := filter (fun p => enclosesPos p (selection_active editor)) (data this) in
  let removed :=
    filter (fun p => negb (enclosesPos p (selection_active editor))) (data this) in
  match removed with
  | [] => mkOutcome (normal tt) (mkPairs retained [] (settings this)) []
  | _ :: _ =>
      let redone := reapplyDecorations retained (decorateOnlyNearestPair (settings this)) in
      mkOutcome (normal tt)
                (mkPairs (fst redone) (map undecorate removed) (settings this))
                (map undecorateCall removed ++ snd redone)
  end.
Proof.
  unfold updateGivenCursorChanges. rewrite removeEscapedPairs_filter.
  destruct (filter (fun p => negb (enclosesPos p (selection_active editor)))
                   (data this)) as [|p rest]; [reflexivity|].
  replace (Z.of_nat (List.length (p :: rest)) >? 0) with true
    by (simpl List.length; symmetry; apply Z.gtb_lt; lia).
  unfold removeDecorations. cbv zeta.
  destruct (reapplyDecorations _ _). reflexivity.
Qed.

Lemma filter_all_true {A : Type} (f : A -> bool) (l : list A) :
  (forall a, In a l -> f a = true) ->
  filter f l = l /\ filter (fun a => negb (f a)) l = [].
Proof.
  induction l as [|a l IH]; intros H; [split; reflexivity|].
  simpl. rewrite (H a (or_introl eq_refl)). simpl.
  destruct IH as [IH1 IH2]; [intros; apply H; now right|].
  now rewrite IH1, IH2.
Qed.

Lemma filter_none_removed {A : Type} (f : A -> bool) (l : list A) :
  filter (fun a => negb (f a)) l = [] -> filter f l = l.
Proof.
  induction l as [|a l IH]; [reflexivity|].
  simpl. destruct (f a); simpl; [|discriminate].
  intros H. now rewrite IH.
Qed.

Lemma updateGivenCursorChanges_data_enclose (editor : TextEditor) (this : Pairs)
  (p : Pair) :
  In p (data (this_ (updateGivenCursorChanges editor this))) ->
  enclosesPos p (selection_active editor) = true.
Proof.
  intros Hin.
  destruct (In_same_sides p _ _ (updateGivenCursorChanges_data editor this) Hin)
    as (q & Hq & Hsides).
  apply filter_In in Hq as [_ Hq].
  now rewrite <- (enclosesPos_sides q p _ Hsides).
Qed.

Lemma updateGivenCursorChanges_settings (editor : TextEditor) (this : Pairs) :
  settings (this_ (updateGivenCursorChanges editor this)) = settings this.
Proof.
  rewrite updateGivenCursorChanges_unfolded. cbv zeta.
  destruct (filter _ _); reflexivity.
Qed.

(** X14. A second cursor-change update at the same cursor position keeps
    the list, empties the rescue buffer and makes no renderer call. *)
Theorem updateGivenCursorChanges_again (editor : TextEditor) (this : Pairs) :
  let st1 := this_ (updateGivenCursorChanges editor this) in
  updateGivenCursorChanges editor st1 =
  mkOutcome (normal tt) (mkPairs (data st1) [] (settings this)) [].
Proof.
  intros st1. rewrite updateGivenCursorChanges_unfolded. cbv zeta.
  destruct (filter_all_true (fun p => enclosesPos p (selection_active editor))
              (data st1)) as [H1 H2].
  { intros p. apply updateGivenCursorChanges_data_enclose. }
  rewrite H1, H2. unfold st1. now rewrite updateGivenCursorChanges_settings.
Qed.

(** ** Decorations over a run *)

Lemma handle_settings (e : Event) (this : Pairs) :
  settings (this_ (handle e this)) = settings this.
Proof.
  destruct e as [[|c rest] editor|editor|]; simpl.
  - unfold updateGivenContentChanges.
    rewrite !applyContentChanges_no_change. reflexivity.
  - now rewrite updateGivenContentChanges_unfolded.
  - apply updateGivenCursorChanges_settings.
  - reflexivity.
Qed.

Lemma run_decorated (events : list Event) (this : Pairs) :
  batchesNonEmpty events = true ->
  decoratedPerSetting (decorateOnlyNearestPair (settings this)) (data this) = true ->
  forallb (fun p => negb (isDecorated p)) (recentlyRemovedDueToCursorMove this) = true ->
  decoratedPerSetting (decorateOnlyNearestPair (settings this))
                      (data (run events this)) = true /\
  forallb (fun p => negb (isDecorated p))
          (recentlyRemovedDueToCursorMove (run events this)) = true.
Proof.
  revert this. induction events as [|e rest IH]; intros this Hne Hdata Hbuf;
    [split; assumption|].
  simpl run. rewrite <- (handle_settings e this).
  assert (Hrest : batchesNonEmpty rest = true).
  { destruct e as [[|c cs] editor|editor|]; simpl in Hne;
      [discriminate|exact Hne|exact Hne|exact Hne]. }
  apply IH; [exact Hrest| |]; rewrite ?handle_settings.
  - destruct e as [[|c cs] editor|editor|]; simpl.
    + discriminate.
    + rewrite updateGivenContentChanges_unfolded. cbv zeta. simpl data.
      apply reapplyDecorations_decorated.
    + rewrite updateGivenCursorChanges_unfolded. cbv zeta.
      destruct (filter (fun p => negb (enclosesPos p (selection_active editor)))
                       (data this)) as [|q l] eqn:Hremoved.
      * simpl data. now rewrite (filter_none_removed _ _ Hremoved).
      * simpl data. apply reapplyDecorations_decorated.
    + destruct (decorateOnlyNearestPair (settings this)); reflexivity.
  - destruct e as [[|c cs] editor|editor|]; simpl.
    + discriminate.
    + now rewrite updateGivenContentChanges_unfolded.
    + rewrite updateGivenCursorChanges_unfolded. cbv zeta.
      destruct (filter (fun p => negb (enclosesPos p (selection_active editor)))
                       (data this)) as [|q l]; [reflexivity|].
      simpl recentlyRemovedDueToCursorMove. apply forallb_undecorated.
    + reflexivity.
Qed.

(** X15. From an empty container, after any sequence of updates and
    clears without an empty batch, the list is decorated as the setting
    says (the last pair alone, or every pair) and every pair of the rescue
    buffer is undecorated. *)
Theorem decorations_follow_setting (s : Settings) (events : list Event) :
  batchesNonEmpty events = true ->
  decoratedPerSetting (decorateOnlyNearestPair s)
                      (data (run events (Pairs_new s))) = true /\
  forallb (fun p => negb (isDecorated p))
          (recentlyRemovedDueToCursorMove (run events (Pairs_new s))) = true.
Proof.
  intros Hne. apply (run_decorated events (Pairs_new s) Hne).
  - simpl. destruct (decorateOnlyNearestPair s); reflexivity.
  - reflexivity.
Qed.

Lemma decorations_follow_setting_witness :
  let s := mkSettings [lit "()"; lit "[]"] (mkRenderOptions []) true in
  let events :=
    [contentChangeEvent [insertion (mkPosition 0 0) "()"] (editorAt (mkPosition 0 0));
     cursorChangeEvent (editorAt (mkPosition 0 1));
     contentChangeEvent [insertion (mkPosition 0 1) "[]"] (editorAt (mkPosition 0 1));
     cursorChangeEvent (editorAt (mkPosition 0 3))] in
  map isDecorated (data (run events (Pairs_new s))) = [true] /\
  map isDecorated (recentlyRemovedDueToCursorMove (run events (Pairs_new s))) = [false] /\
  decoratedPerSetting true (data (run events (Pairs_new s))) = true.
Proof.
  intros s events. split; [reflexivity|]. split; [reflexivity|].
  exact (proj1 (decorations_follow_setting s events eq_refl)).
Defined.

(** ** The shape of tracked pairs over a run *)

Section Shape.

(** A property of pairs that depends on their sides only, holds of every
    created pair, and is kept by [applyToPair] on the batches [okBatch]
    accepts. *)
Variable shape : Pair -> bool.
Variable okBatch : list TextDocumentContentChangeEvent -> bool.
Variable okEvents : list Event -> bool.

Hypothesis shape_sides : forall p q, sides p = sides q -> shape p = shape q.
Hypothesis shape_created :
  forall contentChanges s created,
    getNewPair contentChanges s = normal (Some created) -> shape created = true.
Hypothesis shape_applyToPair :
  forall contentChanges p p',
    okBatch contentChanges = true -> shape p = true ->
    applyToPair p contentChanges = inl p' -> shape p' = true.
Hypothesis okEvents_cons :
  forall e rest,
    okEvents (e :: rest) = true ->
    okEvents rest = true /\
    match e with
    | contentChangeEvent contentChanges _ => okBatch contentChanges = true
    | _ => True
    end.

Lemma shape_same_sides (pairs pairs' : list Pair) :
  map sides pairs = map sides pairs' ->
  Forall (fun p => shape p = true) pairs' ->
  Forall (fun p => shape p = true) pairs.
Proof.
  intros Heq Hall. apply Forall_forall. intros p Hp.
  destruct (In_same_sides p _ _ Heq Hp) as (q & Hq & Hsides).
  rewrite Forall_forall in Hall.
  rewrite <- (shape_sides q p Hsides). auto.
Qed.

Lemma shape_applyContentChanges (pairs : list Pair)
  (contentChanges : list TextDocumentContentChangeEvent) :
  okBatch contentChanges = true ->
  Forall (fun p => shape p = true) pairs ->
  Forall (fun p => shape p = true) (fst (applyContentChanges pairs contentChanges)).
Proof.
  intros Hok Hall. apply Forall_forall. intros p' Hp'.
  apply applyContentChanges_In in Hp' as (p & Hp & Happly).
  rewrite Forall_forall in Hall.
  exact (shape_applyToPair contentChanges p p' Hok (Hall p Hp) Happly).
Qed.

Lemma shape_handle (e : Event) (this : Pairs) :
  match e with
  | contentChangeEvent contentChanges _ => okBatch contentChanges = true
  | _ => True
  end ->
  Forall (fun p => shape p = true)
         (data this ++ recentlyRemovedDueToCursorMove this) ->
  Forall (fun p => shape p = true)
         (data (this_ (handle e this))
          ++ recentlyRemovedDueToCursorMove (this_ (handle e this))).
Proof.
  intros Hok Hall. apply Forall_app in Hall as [Hdata Hbuf].
  destruct e as [contentChanges editor|editor|]; simpl.
  - rewrite updateGivenContentChanges_buffer, app_nil_r.
    apply (shape_same_sides _ _ (updateGivenContentChanges_data _ _ _)).
    apply Forall_app. split; [now apply shape_applyContentChanges|].
    apply Forall_app. split.
    + unfold recoveredPairs.
      apply (shape_applyContentChanges _ contentChanges Hok) in Hbuf.
      rewrite Forall_forall in *. intros p Hp.
      apply filter_In in Hp as [Hp _]. auto.
    + unfold createdPairs.
      destruct (getNewPair contentChanges (settings this)) as [[created|]|] eqn:Hnew;
        constructor; [|constructor].
      exact (shape_created _ _ _ Hnew).
  - apply Forall_app. split.
    + apply (shape_same_sides _ _ (updateGivenCursorChanges_data _ _)).
      rewrite Forall_forall in *. intros p Hp.
      apply filter_In in Hp as [Hp _]. auto.
    + rewrite updateGivenCursorChanges_buffer.
      apply (shape_same_sides _ (filter (fun p => negb (enclosesPos p
                                           (selection_active editor))) (data this))).
      * apply map_sides_undecorate.
      * rewrite Forall_forall in *. intros p Hp.
        apply filter_In in Hp as [Hp _]. auto.
  - constructor.
Qed.

Lemma shape_run (events : list Event) (this : Pairs) :
  okEvents events = true ->
  Forall (fun p => shape p = true)
         (data this ++ recentlyRemovedDueToCursorMove this) ->
  Forall (fun p => shape p = true)
         (data (run events this)
          ++ recentlyRemovedDueToCursorMove (run events this)).
Proof.
  revert this. induction events as [|e rest IH]; intros this Hok Hall;
    [exact Hall|].
  apply okEvents_cons in Hok as [Hrest He].
  simpl. apply IH; [exact Hrest|]. now apply shape_handle.
Qed.

End Shape.

Lemma applyToPair_sidesOnOneLine
  (contentChanges : list TextDocumentContentChangeEvent) (p p' : Pair) :
  sidesOnOneLine p = true ->
  applyToPair p contentChanges = inl p' -> sidesOnOneLine p' = true.
Proof.
  revert p. induction contentChanges as [|c rest IH]; intros p Hp; simpl.
  - intros H. inversion H; subst. exact Hp.
  - destruct (getNewPos (open p) c) as [o|]; [|discriminate].
    destruct (getNewPos (close p) c) as [cl|]; [|discriminate].
    destruct (line o =? line cl) eqn:Hline; simpl; [|discriminate].
    apply IH. exact Hline.
Qed.

Lemma applyToPair_openBeforeClose
  (contentChanges : list TextDocumentContentChangeEvent) (p p' : Pair) :
  validChanges contentChanges = true ->
  openBeforeClose p = true ->
  applyToPair p contentChanges = inl p' -> openBeforeClose p' = true.
Proof.
  revert p. induction contentChanges as [|c rest IH]; intros p Hvalid Hp; simpl.
  - intros H. inversion H; subst. exact Hp.
  - simpl in Hvalid. apply andb_true_iff in Hvalid as [Hc Hrest].
    destruct (getNewPos (open p) c) as [o|] eqn:Ho; [|discriminate].
    destruct (getNewPos (close p) c) as [cl|] eqn:Hcl; [|discriminate].
    destruct (negb (line o =? line cl)); [discriminate|].
    apply IH; [exact Hrest|].
    exact (getNewPos_strictly_monotone _ _ _ _ c Hc Hp Ho Hcl).
Qed.

Lemma validEvents_cons (e : Event) (rest : list Event) :
  validEvents (e :: rest) = true ->
  validEvents rest = true /\
  match e with
  | contentChangeEvent contentChanges _ => validChanges contentChanges = true
  | _ => True
  end.
Proof.
  destruct e; simpl; [|auto|auto].
  intros H. apply andb_true_iff in H. tauto.
Qed.

(** X16. From an empty container, after any sequence of updates and
    clears, every pair of the list and of the rescue buffer has both
    sides on one line; when the ranges of the batches are valid, its
    opening side is strictly before its closing side as well. *)
Theorem tracked_pairs_stay_on_one_line (s : Settings) (events : list Event) :
  forallb sidesOnOneLine
          (data (run events (Pairs_new s))
           ++ recentlyRemovedDueToCursorMove (run events (Pairs_new s))) = true /\
  (validEvents events = true ->
   forallb openBeforeClose
           (data (run events (Pairs_new s))
            ++ recentlyRemovedDueToCursorMove (run events (Pairs_new s))) = true).
Proof.
  split.
  - apply forallb_forall. apply Forall_forall.
    apply (shape_run sidesOnOneLine (fun _ => true) (fun _ => true)).
    + intros p q H. unfold sidesOnOneLine, sides in *. inversion H. congruence.
    + intros contentChanges s' created H.
      destruct contentChanges as [|first rest]; [discriminate|].
      apply getNewPair_first in H as (_ & _ & H).
      unfold sidesOnOneLine, sides in *. inversion H as [[Ho Hc]].
      rewrite Hc. simpl. rewrite Ho. apply Z.eqb_refl.
    + intros contentChanges p p' _. apply applyToPair_sidesOnOneLine.
    + intros e rest _. split; [reflexivity|]. destruct e; auto.
    + reflexivity.
    + constructor.
  - intros Hvalid. apply forallb_forall. apply Forall_forall.
    apply (shape_run openBeforeClose validChanges validEvents).
    + intros p q H. unfold openBeforeClose, sides in *. inversion H. congruence.
    + intros contentChanges s' created H.
      destruct contentChanges as [|first rest]; [discriminate|].
      apply getNewPair_first in H as (_ & _ & H).
      unfold openBeforeClose, sides in *. inversion H as [[Ho Hc]].
      rewrite Hc. apply isBefore_lt. simpl. rewrite Ho. lia.
    + intros contentChanges p p'. apply applyToPair_openBeforeClose.
    + apply validEvents_cons.
    + exact Hvalid.
    + constructor.
Qed.

Lemma tracked_pairs_stay_on_one_line_witness :
  let s := mkSettings [lit "()"] (mkRenderOptions []) false in
  let events :=
    [contentChangeEvent [insertion (mkPosition 0 0) "()"] (editorAt (mkPosition 0 1));
     contentChangeEvent [mkContentChange (mkRange (mkPosition 0 0) (mkPosition 0 0))
                                         [LF; 32%N]] (editorAt (mkPosition 1 2));
     cursorChangeEvent (editorAt (mkPosition 0 0))] in
  map sides (recentlyRemovedDueToCursorMove (run events (Pairs_new s))) =
    [(mkPosition 1 1, mkPosition 1 2)] /\
  forallb openBeforeClose
          (data (run events (Pairs_new s))
           ++ recentlyRemovedDueToCursorMove (run events (Pairs_new s))) = true.
Proof.
  intros s events. split; [reflexivity|].
  exact (proj2 (tracked_pairs_stay_on_one_line s events) eq_refl).
Defined.

(** X17. The pair a content-change update creates is the last pair of
    the list afterwards and is decorated, under either setting; it spans
    one character on one line. *)
Theorem created_pair_is_last_and_decorated
  (contentChanges : list TextDocumentContentChangeEvent) (editor : TextEditor)
  (this : Pairs) (created : Pair) :
  getNewPair contentChanges (settings this) = normal (Some created) ->
  (exists outer,
      data (this_ (updateGivenContentChanges contentChanges editor this))
      = outer ++ [decorate created]) /\
  line (close created) = line (open created) /\
  character (close created) = character (open created) + 1.
Proof.
  intros Hnew.
  destruct contentChanges as [|c rest]; [discriminate|].
  split.
  - rewrite updateGivenContentChanges_unfolded. cbv zeta. simpl data.
    unfold createdPairs. rewrite Hnew. rewrite app_assoc.
    destruct (decorateOnlyNearestPair (settings this)).
    + rewrite reapplyDecorations_nearest. simpl fst. eauto.
    + rewrite reapplyDecorations_all_fst, map_app. simpl. eauto.
  - apply getNewPair_first in Hnew as (_ & _ & H).
    unfold sides in H. inversion H as [[Ho Hc]]. rewrite Hc. simpl.
    rewrite Ho. auto.
Qed.

Lemma created_pair_is_last_and_decorated_witness :
  exists outer,
    data (this_ (updateGivenContentChanges
                   [insertion (mkPosition 0 1) "[]"] (editorAt (mkPosition 0 1))
                   (mkPairs [Pair_new (mkPosition 0 0) (mkPosition 0 1) (mkRenderOptions [])]
                            [] (mkSettings [lit "[]"] (mkRenderOptions []) false))))
    = outer ++ [mkPair (mkPosition 0 1) (mkPosition 0 2) true (mkRenderOptions [])].
Proof.
  exact (proj1 (created_pair_is_last_and_decorated
                  [insertion (mkPosition 0 1) "[]"] (editorAt (mkPosition 0 1))
                  (mkPairs [Pair_new (mkPosition 0 0) (mkPosition 0 1) (mkRenderOptions [])]
                           [] (mkSettings [lit "[]"] (mkRenderOptions []) false))
                  _ eq_refl)).
Defined.

Lemma reapplyDecorations_decorates_listed (pairs : list Pair) (onlyNearest : bool)
  (p : Pair) :
  In (decorateCall p) (snd (reapplyDecorations pairs onlyNearest)) ->
  In (sides p) (map sides pairs).
Proof.
  destruct pairs as [|q rest] using rev_ind; [simpl; tauto|].
  destruct onlyNearest.
  - rewrite reapplyDecorations_nearest. cbn [snd]. intros H.
    apply in_app_or in H as [H|[H|[]]].
    + apply in_map_iff in H as (x & Hx & _). discriminate.
    + inversion H; subst. rewrite map_app. apply in_or_app. right. now left.
  - destruct (rest ++ [q]) as [|x l] eqn:E; [destruct rest; discriminate|].
    rewrite reapplyDecorations_all. cbn [snd]. intros H.
    apply in_app_or in H as [H|H].
    + apply in_map_iff in H as (y & Hy & _). discriminate.
    + apply in_map_iff in H as (y & Hy & Hin). inversion Hy; subst.
      apply in_map_iff in Hin as (z & <- & Hz).
      change (sides (undecorate z)) with (sides z). now apply in_map.
Qed.

(** X18. Every pair an update removes from the list gets an
    [undecorate] call in that update, before any other renderer call, and
    no update or clear decorates a pair that is not in the list
    afterwards. *)
Theorem removed_pairs_are_undecorated :
  (forall c rest editor this,
      exists later,
        rendererCalls (updateGivenContentChanges (c :: rest) editor this) =
        map undecorateCall (snd (applyContentChanges (data this) (c :: rest)))
        ++ later) /\
  (forall editor this,
      exists later,
        rendererCalls (updateGivenCursorChanges editor this) =
        map undecorateCall
            (filter (fun p => negb (enclosesPos p (selection_active editor)))
                    (data this))
        ++ later) /\
  (forall e this p,
      In (decorateCall p) (rendererCalls (handle e this)) ->
      In (sides p) (map sides (data (this_ (handle e this))))).
Proof.
  split; [|split].
  - intros c rest editor this. rewrite updateGivenContentChanges_unfolded.
    cbv zeta. simpl rendererCalls. eexists. reflexivity.
  - intros editor this. rewrite updateGivenCursorChanges_unfolded. cbv zeta.
    destruct (filter (fun p => negb (enclosesPos p (selection_active editor)))
                     (data this)); simpl rendererCalls;
      [exists []; reflexivity|eexists; reflexivity].
  - intros e this p.
    destruct e as [[|c rest] editor|editor|]; simpl handle.
    + unfold updateGivenContentChanges.
      rewrite !applyContentChanges_no_change. simpl. tauto.
    + rewrite updateGivenContentChanges_unfolded. cbv zeta.
      cbn [rendererCalls data this_]. intros H.
      rewrite map_sides_reapplyDecorations.
      apply in_app_or in H as [H|H].
      * apply in_map_iff in H as (x & Hx & _). discriminate.
      * now apply reapplyDecorations_decorates_listed in H.
    + rewrite updateGivenCursorChanges_unfolded. cbv zeta.
      destruct (filter (fun p => negb (enclosesPos p (selection_active editor)))
                       (data this)) as [|q l]; [simpl; tauto|].
      cbn [rendererCalls data this_]. intros H.
      rewrite map_sides_reapplyDecorations.
      apply in_app_or in H as [H|H].
      * apply in_map_iff in H as (x & Hx & _). discriminate.
      * now apply reapplyDecorations_decorates_listed in H.
    + simpl. intros H. apply in_map_iff in H as (x & Hx & _). discriminate.
Qed.

Lemma removed_pairs_are_undecorated_witness :
  let s := mkSettings [lit "()"] (mkRenderOptions []) true in
  let e := contentChangeEvent [insertion (mkPosition 0 0) "()"]
                              (editorAt (mkPosition 0 1)) in
  In (mkPosition 0 0, mkPosition 0 1)
     (map sides (data (this_ (handle e (Pairs_new s))))).
Proof.
  intros s e.
  apply (proj2 (proj2 removed_pairs_are_undecorated) e (Pairs_new s)
           (Pair_new (mkPosition 0 0) (mkPosition 0 1) (mkRenderOptions []))).
  simpl. auto.
Defined.

(** X19. [mostNested] is undefined exactly when [isEmpty] holds, and is
    the last pair of the list otherwise; an empty container has no line
    of sight. *)
Theorem mostNested_is_last_pair :
  (forall this, mostNested this = None <-> Pairs_isEmpty this = true) /\
  (forall outer nearest removed s,
      mostNested (mkPairs (outer ++ [nearest]) removed s) = Some nearest) /\
  (forall window_activeTextEditor this,
      Pairs_isEmpty this = true ->
      hasLineOfSight window_activeTextEditor this = false).
Proof.
  split; [|split].
  - intros this. unfold mostNested, Pairs_isEmpty.
    destruct (data this) as [|p rest] using rev_ind.
    + simpl. tauto.
    + rewrite nth_error_last_index. split; [discriminate|].
      rewrite length_app. simpl. intros H. apply Z.ltb_lt in H. lia.
  - intros. apply mostNested_last.
  - intros w this H. unfold hasLineOfSight, Pairs_isEmpty in *.
    destruct w; [|reflexivity]. now rewrite H.
Qed.

Lemma mostNested_is_last_pair_witness :
  hasLineOfSight (Some (editorAt (mkPosition 0 0)))
                 (Pairs_new (mkSettings [] (mkRenderOptions []) true)) = false.
Proof.
  exact (proj2 (proj2 mostNested_is_last_pair)
           (Some (editorAt (mkPosition 0 0)))
           (Pairs_new (mkSettings [] (mkRenderOptions []) true)) eq_refl).
Defined.

(* ================================================================== *)
(** * The engine keeps one tracker per visible text editor *)

Local Close Scope Z_scope.

Lemma Set_has_In (e : Engine.EditorId) (s : list Engine.EditorId) :
  Engine.Set_has e s = true <-> In e s.
Proof.
  unfold Engine.Set_has. rewrite existsb_exists. split.
  - intros (x & Hx & Heq). apply Nat.eqb_eq in Heq. now subst.
  - intros H. exists e. split; [exact H|apply Nat.eqb_refl].
Qed.

Lemma Set_add_In (e x : Engine.EditorId) (s : list Engine.EditorId) :
  In x (Engine.Set_add e s) <-> x = e \/ In x s.
Proof.
  unfold Engine.Set_add. destruct (Engine.Set_has e s) eqn:H.
  - apply Set_has_In in H. split; [auto|]. intros [->|Hx]; auto.
  - rewrite in_app_iff. simpl. intuition.
Qed.

Lemma Set_add_NoDup (e : Engine.EditorId) (s : list Engine.EditorId) :
  NoDup s -> NoDup (Engine.Set_add e s).
Proof.
  intros Hs. unfold Engine.Set_add. destruct (Engine.Set_has e s) eqn:H; [exact Hs|].
  apply NoDup_app; [exact Hs|repeat constructor; auto|].
  intros x Hx [<-|[]]. apply Set_has_In in Hx. congruence.
Qed.

Lemma Set_fold_spec (editors acc : list Engine.EditorId) :
  (forall x, In x (fold_left (fun s e => Engine.Set_add e s) editors acc)
             <-> In x acc \/ In x editors) /\
  (NoDup acc -> NoDup (fold_left (fun s e => Engine.Set_add e s) editors acc)).
Proof.
  revert acc. induction editors as [|e rest IH]; intros acc; simpl.
  - split; [intros x; tauto|auto].
  - destruct (IH (Engine.Set_add e acc)) as [IH1 IH2]. split.
    + intros x. rewrite IH1, Set_add_In. intuition.
    + intros H. apply IH2. now apply Set_add_NoDup.
Qed.

Lemma Set_new_In (editors : list Engine.EditorId) (x : Engine.EditorId) :
  In x (Engine.Set_new editors) <-> In x editors.
Proof.
  unfold Engine.Set_new. rewrite (proj1 (Set_fold_spec editors [])). simpl. tauto.
Qed.

Lemma Set_new_NoDup (editors : list Engine.EditorId) : NoDup (Engine.Set_new editors).
Proof. apply (proj2 (Set_fold_spec editors [])). constructor. Qed.

Lemma Map_get_In (e : Engine.EditorId) (m : Engine.TrackerMap) (t : Engine.Tracker) :
  Engine.Map_get e m = Some t -> In (e, t) m.
Proof.
  induction m as [|[e' t'] rest IH]; simpl; [discriminate|].
  destruct (Nat.eqb_spec e' e) as [->|Hne].
  - intros H. inversion H. now left.
  - intros H. right. auto.
Qed.

Lemma Map_has_In (e : Engine.EditorId) (m : Engine.TrackerMap) :
  Engine.Map_has e m = true <-> In e (map fst m).
Proof.
  unfold Engine.Map_has. induction m as [|[e' t'] rest IH]; simpl.
  - split; [discriminate|tauto].
  - destruct (Nat.eqb_spec e' e) as [->|Hne].
    + split; auto.
    + rewrite IH. split; [auto|]. intros [H|H]; [contradiction|exact H].
Qed.

Lemma Map_get_set_same (e : Engine.EditorId) (t : Engine.Tracker)
  (m : Engine.TrackerMap) :
  Engine.Map_get e (Engine.Map_set e t m) = Some t.
Proof.
  induction m as [|[e' t'] rest IH]; simpl.
  - now rewrite Nat.eqb_refl.
  - destruct (Nat.eqb_spec e' e) as [->|Hne]; simpl.
    + now rewrite Nat.eqb_refl.
    + destruct (Nat.eqb_spec e' e); [contradiction|exact IH].
Qed.

Lemma Map_get_set_other (e e' : Engine.EditorId) (t : Engine.Tracker)
  (m : Engine.TrackerMap) :
  e' <> e -> Engine.Map_get e' (Engine.Map_set e t m) = Engine.Map_get e' m.
Proof.
  intros Hne. induction m as [|[e0 t0] rest IH]; simpl.
  - destruct (Nat.eqb_spec e e'); [congruence|reflexivity].
  - destruct (Nat.eqb_spec e0 e) as [->|Hne0]; simpl.
    + destruct (Nat.eqb_spec e e'); [congruence|reflexivity].
    + destruct (Nat.eqb_spec e0 e'); [reflexivity|exact IH].
Qed.

Lemma Map_set_keys (e : Engine.EditorId) (t : Engine.Tracker) (m : Engine.TrackerMap) :
  map fst (Engine.Map_set e t m) =
  if Engine.Map_has e m then map fst m else map fst m ++ [e].
Proof.
  unfold Engine.Map_has. induction m as [|[e' t'] rest IH]; simpl; [reflexivity|].
  destruct (Nat.eqb_spec e' e) as [->|Hne]; simpl; [reflexivity|].
  rewrite IH. destruct (Engine.Map_get e rest); reflexivity.
Qed.

Lemma Map_set_NoDup (e : Engine.EditorId) (t : Engine.Tracker) (m : Engine.TrackerMap) :
  NoDup (map fst m) -> NoDup (map fst (Engine.Map_set e t m)).
Proof.
  intros H. rewrite Map_set_keys.
  destruct (Engine.Map_has e m) eqn:Hhas; [exact H|].
  apply NoDup_app; [exact H|repeat constructor; auto|].
  intros x Hx [<-|[]]. apply Map_has_In in Hx. congruence.
Qed.

Lemma Map_get_None_notin (e : Engine.EditorId) (m : Engine.TrackerMap) :
  ~ In e (map fst m) -> Engine.Map_get e m = None.
Proof.
  intros H. destruct (Engine.Map_get e m) eqn:E; [|reflexivity].
  elim H. apply Map_has_In. unfold Engine.Map_has. now rewrite E.
Qed.

(** The first loop: what the new map holds and which trackers are
    disposed of. *)
Lemma preserveVisible_spec (entries : Engine.TrackerMap)
  (visibleSet : list Engine.EditorId) (acc : Engine.TrackerMap) :
  NoDup (map fst entries) ->
  (forall e,
      Engine.Map_get e (fst (Engine.preserveVisible entries visibleSet acc)) =
      match (if Engine.Set_has e visibleSet then Engine.Map_get e entries else None) with
      | Some t => Some t
      | None => Engine.Map_get e acc
      end) /\
  snd (Engine.preserveVisible entries visibleSet acc) =
    map snd (filter (fun entry => negb (Engine.Set_has (fst entry) visibleSet)) entries).
Proof.
  revert acc. induction entries as [|[e0 t0] rest IH]; intros acc Hnd.
  - simpl. split; [|reflexivity]. intros e.
    destruct (Engine.Set_has e visibleSet); reflexivity.
  - simpl in Hnd. inversion Hnd as [|? ? Hnotin Hrest]; subst.
    simpl. destruct (Engine.Set_has e0 visibleSet) eqn:Hvis.
    + destruct (IH (Engine.Map_set e0 t0 acc) Hrest) as [IH1 IH2].
      split; [|exact IH2]. intros e. rewrite IH1.
      destruct (Nat.eqb_spec e0 e) as [<-|Hne].
      * rewrite Hvis, (Map_get_None_notin e0 rest Hnotin), Map_get_set_same.
        reflexivity.
      * rewrite (Map_get_set_other e0 e t0 acc) by congruence. reflexivity.
    + destruct (IH acc Hrest) as [IH1 IH2].
      destruct (Engine.preserveVisible rest visibleSet acc) as [m d].
      simpl in *. split; [|now rewrite IH2]. intros e. rewrite IH1.
      destruct (Nat.eqb_spec e0 e) as [<-|Hne]; [|reflexivity].
      rewrite Hvis. reflexivity.
Qed.

Lemma preserveVisible_keys (entries : Engine.TrackerMap)
  (visibleSet : list Engine.EditorId) (acc : Engine.TrackerMap) :
  (NoDup (map fst acc) ->
   NoDup (map fst (fst (Engine.preserveVisible entries visibleSet acc)))) /\
  (forall e, In e (map fst (fst (Engine.preserveVisible entries visibleSet acc))) ->
             In e (map fst acc) \/ In e visibleSet).
Proof.
  revert acc. induction entries as [|[e0 t0] rest IH]; intros acc; simpl.
  - auto.
  - destruct (Engine.Set_has e0 visibleSet) eqn:Hvis.
    + destruct (IH (Engine.Map_set e0 t0 acc)) as [IH1 IH2]. split.
      * intros H. apply IH1. now apply Map_set_NoDup.
      * intros e He. apply IH2 in He as [He|He]; [|now right].
        rewrite Map_set_keys in He.
        destruct (Engine.Map_has e0 acc); [now left|].
        apply in_app_or in He as [He|[<-|[]]]; [now left|].
        right. now apply Set_has_In.
    + destruct (IH acc) as [IH1 IH2].
      destruct (Engine.preserveVisible rest visibleSet acc) as [m d]. simpl in *.
      auto.
Qed.

(** The second loop: trackers already there stay, every member of the
    set without one gets a new one. *)
Lemma assignNew_spec (visibleSet : list Engine.EditorId) (m : Engine.TrackerMap)
  (next : nat) :
  let m' := fst (Engine.assignNew visibleSet m next) in
  let next' := snd (Engine.assignNew visibleSet m next) in
  (next <= next')%nat /\
  (forall e t, Engine.Map_get e m = Some t -> Engine.Map_get e m' = Some t) /\
  (forall e, Engine.Map_get e m = None ->
             if Engine.Set_has e visibleSet
             then exists t, Engine.Map_get e m' = Some t /\ Engine.owner t = e
                            /\ (next <= Engine.trackerId t < next')%nat
             else Engine.Map_get e m' = None) /\
  (NoDup (map fst m) -> NoDup (map fst m')).
Proof.
  revert m next. induction visibleSet as [|v rest IH]; intros m next; simpl.
  - repeat split; auto.
  - destruct (Engine.Map_has v m) eqn:Hhas; simpl.
    + destruct (IH m next) as (I1 & I2 & I3 & I4).
      repeat split; auto.
      intros e He. specialize (I3 e He).
      destruct (Nat.eqb_spec e v) as [->|Hne]; simpl; [|exact I3].
      unfold Engine.Map_has in Hhas. rewrite He in Hhas. discriminate.
    + destruct (IH (Engine.Map_set v (Engine.mkTracker next v) m) (S next))
        as (I1 & I2 & I3 & I4).
      assert (Hv : Engine.Map_get v m = None).
      { unfold Engine.Map_has in Hhas. destruct (Engine.Map_get v m); [discriminate|auto]. }
      repeat split.
      * lia.
      * intros e t He. apply I2.
        rewrite Map_get_set_other; [exact He|]. intros ->. congruence.
      * intros e He.
        destruct (Nat.eqb_spec e v) as [->|Hne]; simpl.
        -- exists (Engine.mkTracker next v). repeat split; simpl; try lia.
           apply I2. apply Map_get_set_same.
        -- assert (He' : Engine.Map_get e (Engine.Map_set v (Engine.mkTracker next v) m)
                         = None) by (rewrite Map_get_set_other; auto).
           specialize (I3 e He').
           destruct (Engine.Set_has e rest); [|exact I3].
           destruct I3 as (t & H1 & H2 & H3). exists t. repeat split; auto; lia.
      * intros H. apply I4. now apply Map_set_NoDup.
Qed.

Lemma watcher_tracks_visible_editors
  (visibleTextEditors : list Engine.EditorId) (this : Engine.State) :
  let after := fst (Engine.onDidChangeVisibleTextEditors visibleTextEditors this) in
  (forall e, Engine.Map_has e (Engine.trackers after) = true <-> In e visibleTextEditors) /\
  NoDup (map fst (Engine.trackers after)).
Proof.
  unfold Engine.onDidChangeVisibleTextEditors.
  pose proof (preserveVisible_keys (Engine.trackers this)
                (Engine.Set_new visibleTextEditors) []) as [K1 K2].
  destruct (Engine.preserveVisible (Engine.trackers this)
              (Engine.Set_new visibleTextEditors) []) as [kept disposed].
  pose proof (assignNew_spec (Engine.Set_new visibleTextEditors) kept
                (Engine.allocated this)) as (A1 & A2 & A3 & A4).
  destruct (Engine.assignNew (Engine.Set_new visibleTextEditors) kept
              (Engine.allocated this)) as [newTrackers next].
  simpl in *. split.
  - intros e. unfold Engine.Map_has.
    destruct (Engine.Map_get e kept) as [t|] eqn:Hkept.
    + rewrite (A2 e t Hkept). split; [intros _|reflexivity].
      assert (Hin : In e (map fst kept)).
      { apply Map_has_In. unfold Engine.Map_has. now rewrite Hkept. }
      apply K2 in Hin as [[]|Hin]. now apply Set_new_In.
    + specialize (A3 e Hkept).
      destruct (Engine.Set_has e (Engine.Set_new visibleTextEditors)) eqn:Hvis.
      * destruct A3 as (t & -> & _). split; [intros _|reflexivity].
        apply Set_new_In. now apply Set_has_In.
      * rewrite A3. split; [discriminate|]. intros Hin.
        apply Set_new_In, Set_has_In in Hin. congruence.
  - apply A4, K1. constructor.
Qed.

(** X20. After the visible-editors watcher has run, the text editors with
    a tracker are exactly the visible ones, each once. *)
Theorem visible_editors_are_the_tracked_ones
  (visibleTextEditors : list Engine.EditorId) (this : Engine.State) :
  let after := fst (Engine.onDidChangeVisibleTextEditors visibleTextEditors this) in
  (forall e, Engine.Map_has e (Engine.trackers after) = true <-> In e visibleTextEditors) /\
  NoDup (map fst (Engine.trackers after)).
Proof. apply watcher_tracks_visible_editors. Qed.

Lemma watcher_keeps_trackers
  (visibleTextEditors : list Engine.EditorId) (this : Engine.State) :
  NoDup (map fst (Engine.trackers this)) ->
  let after := fst (Engine.onDidChangeVisibleTextEditors visibleTextEditors this) in
  let disposed := snd (Engine.onDidChangeVisibleTextEditors visibleTextEditors this) in
  (forall e t, In e visibleTextEditors ->
               Engine.Map_get e (Engine.trackers this) = Some t ->
               Engine.Map_get e (Engine.trackers after) = Some t) /\
  (forall e, In e visibleTextEditors ->
             Engine.Map_get e (Engine.trackers this) = None ->
             exists t, Engine.Map_get e (Engine.trackers after) = Some t
                       /\ Engine.owner t = e
                       /\ (Engine.allocated this <= Engine.trackerId t
                           < Engine.allocated after)%nat) /\
  disposed =
    map snd (filter (fun entry => negb (existsb (Nat.eqb (fst entry)) visibleTextEditors))
                    (Engine.trackers this)) /\
  Engine.activeTracker after = Engine.activeTracker this.
Proof.
  intros Hnd. unfold Engine.onDidChangeVisibleTextEditors.
  pose proof (preserveVisible_spec (Engine.trackers this)
                (Engine.Set_new visibleTextEditors) [] Hnd) as [P1 P2].
  destruct (Engine.preserveVisible (Engine.trackers this)
              (Engine.Set_new visibleTextEditors) []) as [kept disposed].
  pose proof (assignNew_spec (Engine.Set_new visibleTextEditors) kept
                (Engine.allocated this)) as (A1 & A2 & A3 & A4).
  destruct (Engine.assignNew (Engine.Set_new visibleTextEditors) kept
              (Engine.allocated this)) as [newTrackers next].
  simpl in *.
  assert (Hvis : forall e, In e visibleTextEditors ->
                           Engine.Set_has e (Engine.Set_new visibleTextEditors) = true).
  { intros e He. now apply Set_has_In, Set_new_In. }
  repeat split.
  - intros e t He Hget. apply A2. rewrite P1, (Hvis e He), Hget. reflexivity.
  - intros e He Hget.
    assert (Hkept : Engine.Map_get e kept = None).
    { rewrite P1, (Hvis e He), Hget. reflexivity. }
    specialize (A3 e Hkept). rewrite (Hvis e He) in A3. exact A3.
  - rewrite P2. f_equal. apply filter_ext. intros [e t]. simpl. f_equal.
    apply eq_true_iff_eq. rewrite Set_has_In, Set_new_In.
    fold (Engine.Set_has e visibleTextEditors). now rewrite Set_has_In.
Qed.

(** X21. The visible-editors watcher keeps the tracker of every text
    editor that stays visible, creates a tracker for every text editor
    that became visible, and disposes of exactly the trackers of the text
    editors that are no longer visible, in the order of the map. *)
Theorem visible_editors_keep_their_tracker
  (visibleTextEditors : list Engine.EditorId) (this : Engine.State) :
  NoDup (map fst (Engine.trackers this)) ->
  let after := fst (Engine.onDidChangeVisibleTextEditors visibleTextEditors this) in
  let disposed := snd (Engine.onDidChangeVisibleTextEditors visibleTextEditors this) in
  (forall e t, In e visibleTextEditors ->
               Engine.Map_get e (Engine.trackers this) = Some t ->
               Engine.Map_get e (Engine.trackers after) = Some t) /\
  (forall e, In e visibleTextEditors ->
             Engine.Map_get e (Engine.trackers this) = None ->
             exists t, Engine.Map_get e (Engine.trackers after) = Some t
                       /\ Engine.owner t = e
                       /\ (Engine.allocated this <= Engine.trackerId t
                           < Engine.allocated after)%nat) /\
  disposed =
    map snd (filter (fun entry => negb (existsb (Nat.eqb (fst entry)) visibleTextEditors))
                    (Engine.trackers this)) /\
  Engine.activeTracker after = Engine.activeTracker this.
Proof. apply watcher_keeps_trackers. Qed.

Lemma visible_editors_keep_their_tracker_witness :
  let this := Engine.Engine_new [1; 2; 3]%nat (Some 2%nat) in
  let after := fst (Engine.onDidChangeVisibleTextEditors [3; 4; 1]%nat this) in
  Engine.trackers after =
    [(1, Engine.mkTracker 0 1); (3, Engine.mkTracker 2 3); (4, Engine.mkTracker 3 4)]%nat /\
  snd (Engine.onDidChangeVisibleTextEditors [3; 4; 1]%nat this) = [Engine.mkTracker 1 2]%nat /\
  Engine.Map_get 3%nat (Engine.trackers after) = Some (Engine.mkTracker 2 3)%nat.
Proof.
  intros this after. split; [reflexivity|]. split; [reflexivity|].
  assert (Hnd : NoDup (map fst (Engine.trackers this)))
    by (simpl; repeat constructor; simpl; intuition discriminate).
  exact (proj1 (visible_editors_keep_their_tracker [3; 4; 1]%nat this Hnd)
           3%nat (Engine.mkTracker 2 3) (or_introl eq_refl) eq_refl).
Defined.

Lemma Map_set_In (e x : Engine.EditorId) (t y : Engine.Tracker) (m : Engine.TrackerMap) :
  In (x, y) (Engine.Map_set e t m) -> (x = e /\ y = t) \/ In (x, y) m.
Proof.
  induction m as [|[e' t'] rest IH]; simpl.
  - intros [H|[]]. inversion H. auto.
  - destruct (Nat.eqb_spec e' e) as [->|Hne]; simpl.
    + intros [H|H]; [inversion H; auto|auto].
    + intros [H|H]; [auto|]. apply IH in H. tauto.
Qed.

Lemma Map_In_get (e : Engine.EditorId) (t : Engine.Tracker) (m : Engine.TrackerMap) :
  NoDup (map fst m) -> In (e, t) m -> Engine.Map_get e m = Some t.
Proof.
  induction m as [|[x y] rest IH]; simpl; [tauto|].
  intros Hnd [H|H].
  - inversion H; subst. now rewrite Nat.eqb_refl.
  - inversion Hnd as [|? ? Hnotin Hrest]; subst.
    destruct (Nat.eqb_spec x e) as [->|Hne]; [|auto].
    elim Hnotin. apply in_map_iff. exists (e, t). auto.
Qed.

Lemma Map_set_fresh (e : Engine.EditorId) (t : Engine.Tracker) (m : Engine.TrackerMap) :
  ~ In e (map fst m) -> Engine.Map_set e t m = m ++ [(e, t)].
Proof.
  induction m as [|[e' t'] rest IH]; simpl; [reflexivity|].
  intros H. destruct (Nat.eqb_spec e' e) as [->|Hne]; [tauto|].
  rewrite IH; [reflexivity|tauto].
Qed.

Lemma Map_set_ids (e : Engine.EditorId) (t : Engine.Tracker) (m : Engine.TrackerMap)
  (n : nat) :
  Engine.trackerId t = n ->
  Forall (fun entry => (Engine.trackerId (snd entry) < n)%nat) m ->
  NoDup (map (fun entry => Engine.trackerId (snd entry)) m) ->
  NoDup (map (fun entry => Engine.trackerId (snd entry)) (Engine.Map_set e t m)).
Proof.
  intros Ht Hlt Hnd. induction m as [|[e' t'] rest IH]; simpl.
  - repeat constructor. auto.
  - inversion Hlt as [|? ? Hlt1 Hlt2]; subst. simpl in Hnd.
    inversion Hnd as [|? ? Hnotin Hrest]; subst.
    destruct (Nat.eqb_spec e' e) as [->|Hne]; simpl.
    + constructor; [|exact Hrest]. intros Hin.
      apply in_map_iff in Hin as ([x y] & Hid & Hin). simpl in Hid.
      rewrite Forall_forall in Hlt2. specialize (Hlt2 _ Hin). simpl in Hlt2. lia.
    + constructor; [|auto]. intros Hin.
      apply in_map_iff in Hin as ([x y] & Hid & Hin). simpl in Hid.
      apply Map_set_In in Hin as [[_ ->]|Hin].
      * simpl in Hlt1. lia.
      * apply Hnotin. apply in_map_iff. exists (x, y). auto.
Qed.

Lemma Map_set_wellFormed (e : Engine.EditorId) (t : Engine.Tracker)
  (m : Engine.TrackerMap) (a a' : option Engine.Tracker) (n : nat) :
  Engine.owner t = e -> Engine.trackerId t = n ->
  Engine.wellFormed (Engine.mkState m a n) ->
  Engine.wellFormed (Engine.mkState (Engine.Map_set e t m) a' (S n)).
Proof.
  intros Ho Hid (H1 & H2 & H3). unfold Engine.wellFormed in *. simpl in *.
  split; [now apply Map_set_NoDup|]. split.
  - apply (Map_set_ids e t m n Hid); [|exact H2].
    apply Forall_forall. intros x Hx. rewrite Forall_forall in H3.
    now apply H3.
  - apply Forall_forall. intros [x y] Hx. simpl.
    apply Map_set_In in Hx as [[-> ->]|Hx]; [split; [auto|lia]|].
    rewrite Forall_forall in H3. specialize (H3 _ Hx). simpl in H3. lia.
Qed.

Lemma wellFormed_bound (m : Engine.TrackerMap) (a a' : option Engine.Tracker)
  (n n' : nat) :
  (n <= n')%nat ->
  Engine.wellFormed (Engine.mkState m a n) ->
  Engine.wellFormed (Engine.mkState m a' n').
Proof.
  intros Hle (H1 & H2 & H3). unfold Engine.wellFormed in *. simpl in *.
  repeat split; auto. apply Forall_forall. intros x Hx.
  rewrite Forall_forall in H3. specialize (H3 _ Hx). lia.
Qed.

Lemma assignNew_wellFormed (visibleSet : list Engine.EditorId) (m : Engine.TrackerMap)
  (a : option Engine.Tracker) (next : nat) :
  Engine.wellFormed (Engine.mkState m a next) ->
  Engine.wellFormed
    (Engine.mkState (fst (Engine.assignNew visibleSet m next)) a
                    (snd (Engine.assignNew visibleSet m next))).
Proof.
  revert m next. induction visibleSet as [|v rest IH]; intros m next H; simpl.
  - exact H.
  - destruct (Engine.Map_has v m); simpl; [now apply IH|].
    apply IH. now apply (Map_set_wellFormed v _ m a a next).
Qed.

Lemma NoDup_map_filter {A B : Type} (f : A -> B) (g : A -> bool) (l : list A) :
  NoDup (map f l) -> NoDup (map f (filter g l)).
Proof.
  induction l as [|x l IH]; simpl; [auto|].
  intros H. inversion H as [|? ? Hnotin Hrest]; subst.
  destruct (g x); simpl; [|auto].
  constructor; [|auto]. intros Hin. apply Hnotin.
  apply in_map_iff in Hin as (y & Hy & Hin). apply filter_In in Hin as [Hin _].
  apply in_map_iff. eauto.
Qed.

(** With distinct keys the first loop keeps the entries of the visible
    text editors, in order. *)
Lemma preserveVisible_filter (entries : Engine.TrackerMap)
  (visibleSet : list Engine.EditorId) (acc : Engine.TrackerMap) :
  NoDup (map fst entries) ->
  (forall e, In e (map fst acc) -> ~ In e (map fst entries)) ->
  fst (Engine.preserveVisible entries visibleSet acc) =
  acc ++ filter (fun entry => Engine.Set_has (fst entry) visibleSet) entries.
Proof.
  revert acc. induction entries as [|[e0 t0] rest IH]; intros acc Hnd Hdisj; simpl.
  - now rewrite app_nil_r.
  - simpl in Hnd. inversion Hnd as [|? ? Hnotin Hrest]; subst.
    destruct (Engine.Set_has e0 visibleSet) eqn:Hvis.
    + rewrite Map_set_fresh.
      * rewrite IH; [now rewrite <- app_assoc|exact Hrest|].
        intros e He. rewrite map_app in He. apply in_app_or in He as [He|[<-|[]]].
        -- intros Hin. apply (Hdisj e He). now right.
        -- exact Hnotin.
      * intros Hin. apply (Hdisj e0 Hin). now left.
    + specialize (IH acc Hrest).
      destruct (Engine.preserveVisible rest visibleSet acc) as [m d]. simpl in *.
      apply IH. intros e He Hin. apply (Hdisj e He). now right.
Qed.

Lemma watcher_unfolded (visibleTextEditors : list Engine.EditorId) (this : Engine.State) :
  NoDup (map fst (Engine.trackers this)) ->
  let visibleSet := Engine.Set_new visibleTextEditors in
  let kept := filter (fun entry => Engine.Set_has (fst entry) visibleSet)
                     (Engine.trackers this) in
  Engine.onDidChangeVisibleTextEditors visibleTextEditors this =
  (Engine.mkState (fst (Engine.assignNew visibleSet kept (Engine.allocated this)))
                  (Engine.activeTracker this)
                  (snd (Engine.assignNew visibleSet kept (Engine.allocated this))),
   map snd (filter (fun entry => negb (Engine.Set_has (fst entry) visibleSet))
                   (Engine.trackers this))).
Proof.
  intros Hnd. unfold Engine.onDidChangeVisibleTextEditors.
  pose proof (preserveVisible_filter (Engine.trackers this)
                (Engine.Set_new visibleTextEditors) [] Hnd) as Hkept.
  pose proof (preserveVisible_spec (Engine.trackers this)
                (Engine.Set_new visibleTextEditors) [] Hnd) as [_ Hdisposed].
  destruct (Engine.preserveVisible _ _ _) as [kept disposed]. simpl in *.
  rewrite Hkept by (intros e []). rewrite Hdisposed.
  destruct (Engine.assignNew _ _ _). reflexivity.
Qed.

Lemma filter_wellFormed (g : Engine.EditorId * Engine.Tracker -> bool)
  (this : Engine.State) :
  Engine.wellFormed this ->
  Engine.wellFormed (Engine.mkState (filter g (Engine.trackers this))
                                    (Engine.activeTracker this) (Engine.allocated this)).
Proof.
  intros (H1 & H2 & H3). unfold Engine.wellFormed. simpl.
  split; [now apply NoDup_map_filter|]. split; [now apply NoDup_map_filter|].
  apply Forall_forall. intros x Hx. apply filter_In in Hx as [Hx _].
  rewrite Forall_forall in H3. auto.
Qed.

Lemma watcher_wellFormed (visibleTextEditors : list Engine.EditorId)
  (this : Engine.State) :
  Engine.wellFormed this ->
  Engine.wellFormed (fst (Engine.onDidChangeVisibleTextEditors visibleTextEditors this)).
Proof.
  intros H. rewrite (watcher_unfolded _ _ (proj1 H)). cbv zeta. simpl fst.
  apply assignNew_wellFormed. now apply filter_wellFormed.
Qed.

Lemma newEntries_wellFormed (visibleTextEditors : list Engine.EditorId)
  (m : Engine.TrackerMap) (a : option Engine.Tracker) (n : nat) :
  Engine.wellFormed (Engine.mkState m a n) ->
  Engine.wellFormed
    (Engine.mkState
       (fold_left (fun m entry => Engine.Map_set (fst entry) (snd entry) m)
                  (fst (Engine.newEntries visibleTextEditors n)) m)
       a (snd (Engine.newEntries visibleTextEditors n))).
Proof.
  revert m n. induction visibleTextEditors as [|e rest IH]; intros m n H; simpl.
  - exact H.
  - specialize (IH (Engine.Map_set e (Engine.mkTracker n e) m) (S n)).
    destruct (Engine.newEntries rest (S n)) as [entries n']. simpl in *.
    apply IH. now apply (Map_set_wellFormed e _ m a a n).
Qed.

Lemma Engine_new_wellFormed (visibleTextEditors : list Engine.EditorId)
  (active : option Engine.EditorId) :
  Engine.wellFormed (Engine.Engine_new visibleTextEditors active).
Proof.
  unfold Engine.Engine_new.
  pose proof (newEntries_wellFormed visibleTextEditors [] None 0) as H.
  destruct (Engine.newEntries visibleTextEditors 0) as [entries n]. simpl in *.
  unfold Engine.rebindActiveTracker, Engine.Map_new. simpl.
  apply (wellFormed_bound _ None _ n n); [lia|].
  apply H. repeat split; constructor.
Qed.

Lemma run_wellFormed (events : list Engine.Event) (this : Engine.State) :
  Engine.wellFormed this -> Engine.wellFormed (Engine.run events this).
Proof.
  revert this. induction events as [|e rest IH]; intros this H; [exact H|].
  simpl. apply IH. destruct e as [visible|active]; simpl.
  - now apply watcher_wellFormed.
  - exact H.
Qed.

(** X22. In every state the engine reaches from its constructor, the map
    holds for each key a tracker created for that text editor, and no
    tracker twice; a tracker the visible-editors watcher disposes of is
    not in the map afterwards. *)
Theorem engine_trackers_stay_well_formed :
  (forall visibleTextEditors active events,
      Engine.wellFormed
        (Engine.run events (Engine.Engine_new visibleTextEditors active))) /\
  (forall visibleTextEditors this t,
      Engine.wellFormed this ->
      In t (snd (Engine.onDidChangeVisibleTextEditors visibleTextEditors this)) ->
      ~ In t (map snd (Engine.trackers
                         (fst (Engine.onDidChangeVisibleTextEditors
                                 visibleTextEditors this))))).
Proof.
  split.
  - intros visible active events. apply run_wellFormed, Engine_new_wellFormed.
  - intros visible this t Hwf Hdisposed Hkept.
    pose proof (watcher_tracks_visible_editors visible this) as [Hkeys Hnd].
    pose proof (watcher_keeps_trackers visible this (proj1 Hwf))
      as (Hsame & Hnew & Hdisp & _).
    cbv zeta in *. rewrite Hdisp in Hdisposed.
    apply in_map_iff in Hdisposed as ([e t'] & Ht & Hin). simpl in Ht. subst t'.
    apply filter_In in Hin as [Hin Hhidden]. simpl in Hhidden.
    apply negb_true_iff in Hhidden.
    apply in_map_iff in Hkept as ([e' t'] & Ht & Hin'). simpl in Ht. subst t'.
    assert (Hvis : In e' visible).
    { apply Hkeys. apply Map_has_In. apply in_map_iff. exists (e', t). auto. }
    apply (Map_In_get _ _ _ Hnd) in Hin'.
    destruct Hwf as (W1 & W2 & W3). rewrite Forall_forall in W3.
    destruct (W3 _ Hin) as [Hown Hlt]. cbn [fst snd] in Hown, Hlt.
    destruct (Engine.Map_get e' (Engine.trackers this)) as [t0|] eqn:Hget.
    + rewrite (Hsame e' t0 Hvis Hget) in Hin'.
      assert (Ht0 : t0 = t) by congruence.
      apply Map_get_In in Hget. destruct (W3 _ Hget) as [Hown' _].
      cbn [fst snd] in Hown'.
      assert (Heq : e' = e) by congruence.
      assert (Hcontra : existsb (Nat.eqb e) visible = true).
      { apply existsb_exists. exists e. split; [now rewrite <- Heq|apply Nat.eqb_refl]. }
      congruence.
    + destruct (Hnew e' Hvis Hget) as (t1 & Hafter & _ & Hid).
      rewrite Hafter in Hin'.
      assert (Ht1 : t1 = t) by congruence. rewrite Ht1 in Hid. lia.
Qed.

Lemma engine_trackers_stay_well_formed_witness :
  let this := Engine.Engine_new [1; 2]%nat None in
  snd (Engine.onDidChangeVisibleTextEditors [2; 3]%nat this) = [Engine.mkTracker 0 1] /\
  ~ In (Engine.mkTracker 0 1)
       (map snd (Engine.trackers
                   (fst (Engine.onDidChangeVisibleTextEditors [2; 3]%nat this)))).
Proof.
  intros this. split; [reflexivity|].
  apply (proj2 engine_trackers_stay_well_formed [2; 3]%nat this (Engine.mkTracker 0 1)).
  - apply (proj1 engine_trackers_stay_well_formed [1; 2]%nat None []).
  - simpl. auto.
Defined.

(** X23. After construction [activeTracker] is the tracker created for
    the active text editor when that editor is among the visible ones,
    and undefined when there is no active text editor or it is not
    visible. *)
Theorem Engine_new_binds_active_tracker
  (visibleTextEditors : list Engine.EditorId) :
  (forall e, In e visibleTextEditors ->
             exists t,
               Engine.activeTracker (Engine.Engine_new visibleTextEditors (Some e))
               = Some t
               /\ Engine.owner t = e
               /\ Engine.Map_get e (Engine.trackers
                                      (Engine.Engine_new visibleTextEditors (Some e)))
                  = Some t) /\
  (forall e, ~ In e visibleTextEditors ->
             Engine.activeTracker (Engine.Engine_new visibleTextEditors (Some e)) = None) /\
  Engine.activeTracker (Engine.Engine_new visibleTextEditors None) = None.
Proof.
  assert (Hkeys : forall vis m n e,
             Engine.Map_has e
               (fold_left (fun m entry => Engine.Map_set (fst entry) (snd entry) m)
                          (fst (Engine.newEntries vis n)) m) = true
             <-> Engine.Map_has e m = true \/ In e vis).
  { induction vis as [|v rest IH]; intros m n e; simpl; [tauto|].
    specialize (IH (Engine.Map_set v (Engine.mkTracker n v) m) (S n) e).
    destruct (Engine.newEntries rest (S n)) as [entries n']. simpl in *.
    rewrite IH, !Map_has_In, Map_set_keys.
    destruct (Engine.Map_has v m) eqn:Hv.
    - apply Map_has_In in Hv. split; [tauto|].
      intros [H|[<-|H]]; auto.
    - rewrite in_app_iff. simpl. tauto. }
  assert (Hactive : forall e,
             Engine.activeTracker (Engine.Engine_new visibleTextEditors (Some e)) =
             Engine.Map_get e (Engine.trackers
                                 (Engine.Engine_new visibleTextEditors (Some e)))).
  { intros e. unfold Engine.Engine_new.
    destruct (Engine.newEntries visibleTextEditors 0). reflexivity. }
  assert (Htrackers : forall e,
             Engine.trackers (Engine.Engine_new visibleTextEditors (Some e)) =
             fold_left (fun m entry => Engine.Map_set (fst entry) (snd entry) m)
                       (fst (Engine.newEntries visibleTextEditors 0)) []).
  { intros e. unfold Engine.Engine_new.
    destruct (Engine.newEntries visibleTextEditors 0). reflexivity. }
  split; [|split].
  - intros e He. rewrite Hactive.
    assert (Hhas : Engine.Map_has e (Engine.trackers
                     (Engine.Engine_new visibleTextEditors (Some e))) = true).
    { rewrite Htrackers. apply Hkeys. now right. }
    unfold Engine.Map_has in Hhas.
    destruct (Engine.Map_get e _) as [t|] eqn:Hget; [|discriminate].
    exists t. repeat split.
    pose proof (Engine_new_wellFormed visibleTextEditors (Some e)) as (_ & _ & W).
    rewrite Forall_forall in W. apply Map_get_In in Hget.
    now destruct (W _ Hget).
  - intros e He. rewrite Hactive.
    destruct (Engine.Map_get e _) as [t|] eqn:Hget; [|reflexivity].
    elim He.
    assert (Hhas : Engine.Map_has e (Engine.trackers
                     (Engine.Engine_new visibleTextEditors (Some e))) = true).
    { unfold Engine.Map_has. now rewrite Hget. }
    rewrite Htrackers in Hhas. apply Hkeys in Hhas as [Hhas|Hhas]; [discriminate|auto].
  - unfold Engine.Engine_new.
    destruct (Engine.newEntries visibleTextEditors 0). reflexivity.
Qed.

Lemma Engine_new_binds_active_tracker_witness :
  exists t,
    Engine.activeTracker (Engine.Engine_new [5; 7; 9]%nat (Some 7%nat)) = Some t
    /\ Engine.owner t = 7%nat
    /\ Engine.Map_get 7%nat (Engine.trackers (Engine.Engine_new [5; 7; 9]%nat (Some 7%nat)))
       = Some t.
Proof.
  apply (proj1 (Engine_new_binds_active_tracker [5; 7; 9]%nat)).
  simpl. auto.
Defined.
